(** * The CSS selector builder of [src/06-objects-tasks.js]

    A shallow embedding of [class Builder] and of the [cssSelectorBuilder]
    facade.  A method of [Builder] is a computation over the receiver [this]
    that either returns or throws; the facade works on a heap of builders
    addressed by references, because [combine] receives two references that
    may denote the same object and calls the mutating [stringify] on each. *)

From stdpp Require Import base numbers list sorting strings.

Local Open Scope Z_scope.

(** ** Computations that return or throw, over a mutable state *)

(** What a [throw] carries.  The builder only ever throws [new Error(msg)];
    [TypeError] is what JavaScript raises when a method is called on a value
    that is not a builder object. *)
Inductive exn : Type :=
| Error (message : string)
| TypeError.

Inductive outcome (A : Type) : Type :=
| Return (a : A)
| Throw (e : exn).
Arguments Return {A} a.
Arguments Throw {A} e.

(** A statement run in state [St]: the state at the point of a [throw] is
    the state the caller observes afterwards (no rollback). *)
Definition M (St A : Type) : Type := St → outcome A * St.

Section monad.
Context {St : Type}.

#[export] Instance M_ret : MRet (M St) := λ A a s, (Return a, s).

#[export] Instance M_bind : MBind (M St) := λ A B k m s,
  match m s with
  | (Return a, s') => k a s'
  | (Throw e, s') => (Throw e, s')
  end.

Definition throw {A} (e : exn) : M St A := λ s, (Throw e, s).
Definition gets {A} (f : St → A) : M St A := λ s, (Return (f s), s).
Definition modify (f : St → St) : M St unit := λ s, (Return tt, f s).
End monad.

(** ** Data *)

(** [undefined > n] is [false] in JavaScript (the comparison goes through
    NaN); a number compares as usual.  [None] stands for [undefined]. *)
Definition js_gt (x : option Z) (y : Z) : bool :=
  match x with
  | Some n => bool_decide (y < n)
  | None => false
  end.

(** The object literal pushed by [add]: [{ type, value, priority }]. *)
Record Selector : Type := {
  type : string;
  value : string;
  priority : option Z
}.

(** The fields set by [constructor()]. *)
Record Builder : Type := {
  selectors : list Selector;
  repeatError : string;
  orderError : string
}.

Definition set_selectors (l : list Selector) (this : Builder) : Builder :=
  {| selectors := l;
     repeatError := repeatError this;
     orderError := orderError this |}.

(** ** [class Builder] *)

(** A method is a computation over the receiver.  Every method of the
    source except [stringify] ends in [return this]: the caller already
    holds that reference, so the model returns [tt]. *)

Module Builder.

Definition constructor : Builder :=
  {| selectors := [];
     repeatError := "Element, id and pseudo-element should not occur more then one time inside the selector";
     orderError := "Selector parts should be arranged in the following order: element, id, class, attribute, pseudo-class, pseudo-element" |}.

(** [this.selectors.push({type, value, priority}); return this] *)
Definition add (type value : string) (priority : option Z) : M Builder unit :=
  modify (λ this,
    set_selectors
      (selectors this ++ [{| type := type; value := value; priority := priority |}])
      this).

(** [this.selectors.some((obj) => obj.type === type)] *)
Definition isSelectorExist (ty : string) (this : Builder) : bool :=
  existsb (λ obj, bool_decide (type obj = ty)) (selectors this).

(** [(this.selectors.length !== 0)
     && (this.selectors[this.selectors.length - 1].priority > priority)].
    The index is in range whenever the left conjunct holds, so the [None]
    branch of the lookup is never taken. *)
Definition isPriorityRight (prio : Z) (this : Builder) : bool :=
  negb (bool_decide (length (selectors this) = 0%nat))
  && match selectors this !! (length (selectors this) - 1)%nat with
     | Some obj => js_gt (priority obj) prio
     | None => false
     end.

Definition element (v : string) : M Builder unit :=
  exists_ ← gets (isSelectorExist "element");
  if (exists_ : bool) then msg ← gets repeatError; throw (Error msg) else
  wrong ← gets (isPriorityRight 1);
  if (wrong : bool) then msg ← gets orderError; throw (Error msg) else
  add "element" v (Some 1).

Definition id (v : string) : M Builder unit :=
  exists_ ← gets (isSelectorExist "id");
  if (exists_ : bool) then msg ← gets repeatError; throw (Error msg) else
  wrong ← gets (isPriorityRight 2);
  if (wrong : bool) then msg ← gets orderError; throw (Error msg) else
  add "id" ("#" +:+ v) (Some 2).

Definition class (v : string) : M Builder unit :=
  wrong ← gets (isPriorityRight 3);
  if (wrong : bool) then msg ← gets orderError; throw (Error msg) else
  add "class" ("." +:+ v) (Some 3).

Definition attr (v : string) : M Builder unit :=
  wrong ← gets (isPriorityRight 4);
  if (wrong : bool) then msg ← gets orderError; throw (Error msg) else
  add "attr" ("[" +:+ v +:+ "]") (Some 4).

Definition pseudoClass (v : string) : M Builder unit :=
  wrong ← gets (isPriorityRight 5);
  if (wrong : bool) then msg ← gets orderError; throw (Error msg) else
  add "pseudoClass" (":" +:+ v) (Some 5).

Definition pseudoElement (v : string) : M Builder unit :=
  exists_ ← gets (isSelectorExist "pseudoElement");
  if (exists_ : bool) then msg ← gets repeatError; throw (Error msg) else
  wrong ← gets (isPriorityRight 6);
  if (wrong : bool) then msg ← gets orderError; throw (Error msg) else
  add "pseudoElement" ("::" +:+ v) (Some 6).

(** [this.add('raw', value)]: the third argument is missing, so the
    pushed object has [priority: undefined]. *)
Definition raw (v : string) : M Builder unit :=
  add "raw" v None.

(** The [for] loop of [stringify]: [string += this.selectors[i].value]
    for [i] from [0] to [length - 1]. *)
Definition stringify_loop (l : list Selector) : string :=
  fold_left (λ str obj, str +:+ value obj) l "".

Definition stringify : M Builder string :=
  str ← gets (λ this, stringify_loop (selectors this));
  modify (set_selectors []);;
  mret str.

End Builder.

(** ** The heap of builder objects *)

(** References are positions in the heap; objects are never freed. *)
Abbreviation loc := nat (only parsing).
Abbreviation heap := (list Builder) (only parsing).

(** [new Builder()]: a fresh object, and the reference to it. *)
Definition new_Builder : M heap loc :=
  λ h, (Return (length h), h ++ [Builder.constructor]).

(** A method call [r.m(...)]: runs [m] with [this] bound to the object
    behind [r] and stores the object back, also when [m] throws. *)
Definition call {A} (r : loc) (m : M Builder A) : M heap A :=
  λ h, match h !! r with
       | Some this => let '(o, this') := m this in (o, <[r := this']> h)
       | None => (Throw TypeError, h)
       end.

(** ** [const cssSelectorBuilder] *)

Module cssSelectorBuilder.

Definition element (v : string) : M heap loc :=
  r ← new_Builder; call r (Builder.element v);; mret r.

Definition id (v : string) : M heap loc :=
  r ← new_Builder; call r (Builder.id v);; mret r.

Definition class (v : string) : M heap loc :=
  r ← new_Builder; call r (Builder.class v);; mret r.

Definition attr (v : string) : M heap loc :=
  r ← new_Builder; call r (Builder.attr v);; mret r.

Definition pseudoClass (v : string) : M heap loc :=
  r ← new_Builder; call r (Builder.pseudoClass v);; mret r.

Definition pseudoElement (v : string) : M heap loc :=
  r ← new_Builder; call r (Builder.pseudoElement v);; mret r.

(** [(new Builder()).raw(selector1.stringify())
       .raw(` ${combinator} `).raw(selector2.stringify())]:
    the receiver is created first, then each argument is evaluated just
    before the [raw] call that takes it. *)
Definition combine (selector1 : loc) (combinator : string) (selector2 : loc)
  : M heap loc :=
  r ← new_Builder;
  s1 ← call selector1 Builder.stringify;
  call r (Builder.raw s1);;
  call r (Builder.raw (" " +:+ combinator +:+ " "));;
  s2 ← call selector2 Builder.stringify;
  call r (Builder.raw s2);;
  mret r.

End cssSelectorBuilder.

(** ** The vocabulary of the specification *)

(** The six append operations, as the specification names them. *)
Inductive category : Type :=
| Element | Id | Class | Attr | PseudoClass | PseudoElement.

#[export] Instance category_eq_dec : EqDecision category.
Proof. solve_decision. Defined.

(** The method of [Builder] behind each category. *)
Definition append (k : category) : string → M Builder unit :=
  match k with
  | Element => Builder.element
  | Id => Builder.id
  | Class => Builder.class
  | Attr => Builder.attr
  | PseudoClass => Builder.pseudoClass
  | PseudoElement => Builder.pseudoElement
  end.

(** The entry point of [cssSelectorBuilder] behind each category. *)
Definition facade (k : category) : string → M heap loc :=
  match k with
  | Element => cssSelectorBuilder.element
  | Id => cssSelectorBuilder.id
  | Class => cssSelectorBuilder.class
  | Attr => cssSelectorBuilder.attr
  | PseudoClass => cssSelectorBuilder.pseudoClass
  | PseudoElement => cssSelectorBuilder.pseudoElement
  end.

(** Rank table of the specification: element=1 ... pseudoElement=6. *)
Definition spec_rank (k : category) : Z :=
  match k with
  | Element => 1 | Id => 2 | Class => 3
  | Attr => 4 | PseudoClass => 5 | PseudoElement => 6
  end.

(** Formatted text of the specification: element unprefixed, id prefixed
    [#], class prefixed [.], attribute wrapped in brackets, pseudo-class
    prefixed [:], pseudo-element prefixed [::]. *)
Definition spec_text (k : category) (v : string) : string :=
  match k with
  | Element => v
  | Id => "#" +:+ v
  | Class => "." +:+ v
  | Attr => "[" +:+ v +:+ "]"
  | PseudoClass => ":" +:+ v
  | PseudoElement => "::" +:+ v
  end.

(** The categories the specification allows at most once. *)
Definition at_most_once (k : category) : bool :=
  match k with
  | Element | Id | PseudoElement => true
  | Class | Attr | PseudoClass => false
  end.

(** The tag the code stores for a category. *)
Definition type_name (k : category) : string :=
  match k with
  | Element => "element" | Id => "id" | Class => "class"
  | Attr => "attr" | PseudoClass => "pseudoClass"
  | PseudoElement => "pseudoElement"
  end.

(** The fragment a successful append of [k] with [v] leaves in the sequence. *)
Definition fragment (op : category * string) : Selector :=
  {| type := type_name op.1;
     value := spec_text op.1 op.2;
     priority := Some (spec_rank op.1) |}.

(** The fragment pushed by [raw]: tagged ['raw'], without a priority. *)
Definition raw_fragment (s : string) : Selector :=
  {| type := "raw"; value := s; priority := None |}.

(** A chain of appends on one builder: [.k1(v1).k2(v2)...]. *)
Fixpoint appends (ops : list (category * string)) : M Builder unit :=
  match ops with
  | [] => mret tt
  | (k, v) :: ops' => append k v;; appends ops'
  end.

(** What a chain of appends needs from the builder it starts on and from
    the operations still to come. *)
Definition chain_ready (this : Builder) (ops : list (category * string)) : Prop :=
  (∀ op, op ∈ ops → Builder.isPriorityRight (spec_rank op.1) this = false)
  ∧ (∀ op, op ∈ ops → at_most_once op.1 = true →
       Builder.isSelectorExist (type_name op.1) this = false).

Definition occurrences (k : category) (ops : list (category * string)) : nat :=
  length (filter (λ op, op.1 = k) ops).

Definition concat_strings (l : list string) : string :=
  foldr String.append "" l.

(** The ranks of the ranked fragments of a builder, in sequence order. *)
Definition ranks (this : Builder) : list Z :=
  omap priority (selectors this).

(** The greatest rank among the ranked fragments, if there is one. *)
Definition max_rank (this : Builder) : option Z :=
  match ranks this with
  | [] => None
  | r :: rs => Some (foldr Z.max r rs)
  end.

(** The rank of the last ranked fragment, if there is one. *)
Definition last_rank (this : Builder) : option Z :=
  last (ranks this).

(** [this] renders to [s]: that is what [stringify] returns on it. *)
Definition renders_to (this : Builder) (s : string) : Prop :=
  (Builder.stringify this).1 = Return s.

(** The four combinator tokens of the specification. *)
Definition combinator_tokens : list string := [" "; "+"; "~"; ">"].

(** ** States reachable through the public interface *)

(** A call a client can make: an entry point of the facade, an append on a
    builder it holds, [stringify], or [combine]. *)
Inductive api_call : Type :=
| New (k : category) (v : string)
| Append (r : loc) (k : category) (v : string)
| Stringify (r : loc)
| Combine (r1 : loc) (c : string) (r2 : loc).

Definition run (c : api_call) : M heap unit :=
  match c with
  | New k v => facade k v;; mret tt
  | Append r k v => call r (append k v)
  | Stringify r => call r Builder.stringify;; mret tt
  | Combine r1 c r2 => cssSelectorBuilder.combine r1 c r2;; mret tt
  end.

(** The references a call mentions; a client only holds references to
    builders that exist. *)
Definition refs_of (c : api_call) : list loc :=
  match c with
  | New _ _ => []
  | Append r _ _ => [r]
  | Stringify r => [r]
  | Combine r1 _ r2 => [r1; r2]
  end.

(** A thrown error ends the call, not the program: the heap left by the
    call is where the next call starts. *)
Inductive reachable : heap → Prop :=
| reachable_init : reachable []
| reachable_step h c :
    reachable h →
    Forall (λ r, r < length h)%nat (refs_of c) →
    reachable (run c h).2.

(** The invariant of the public interface: every ranked fragment of a
    builder is dominated by the builder's last fragment, which is ranked
    too.  So the ranked fragments come after the raw ones, in
    non-decreasing rank order, and the last one carries the maximum. *)
Definition last_dominates (this : Builder) : Prop :=
  ∀ o m, o ∈ selectors this → priority o = Some m →
    ∃ l p, last (selectors this) = Some l ∧ priority l = Some p ∧ m ≤ p.

(** ** Concrete builders used as test inputs *)

(** The builder left by [cssSelectorBuilder.element('div').id('main')]. *)
Definition div_main : Builder :=
  set_selectors [fragment (Element, "div"); fragment (Id, "main")]
    Builder.constructor.

(** The builder left by [cssSelectorBuilder.id('main').class('container')]. *)
Definition main_container : Builder :=
  set_selectors [fragment (Id, "main"); fragment (Class, "container")]
    Builder.constructor.

(** The builder left by [cssSelectorBuilder.element('table').id('data')]. *)
Definition table_data : Builder :=
  set_selectors [fragment (Element, "table"); fragment (Id, "data")]
    Builder.constructor.

(** ** Sentences of the specification that the code does not satisfy,
       as the specification words them *)

(** Order rule: below the maximum rank an append fails with the order
    error; at or above the last rank it passes the order check. *)
Definition order_rule_as_stated : Prop :=
  ∀ (h : heap) (r : loc) (this : Builder) (k : category) (v : string),
    reachable h → h !! r = Some this →
    (∀ m, max_rank this = Some m → spec_rank k < m →
       (append k v this).1 = Throw (Error (orderError this)))
    ∧ (∀ p, last_rank this = Some p → p ≤ spec_rank k →
         Builder.isPriorityRight (spec_rank k) this = false).

(** [combine(A, c, B)] renders to [render(A) + " " + c + " " + render(B)],
    for every pair of builders. *)
Definition combine_render_as_stated : Prop :=
  ∀ (h : heap) (A B : loc) (c : string) (a b : Builder) (sa sb : string),
    h !! A = Some a → h !! B = Some b →
    renders_to a sa → renders_to b sb →
    ∃ r h' res,
      cssSelectorBuilder.combine A c B h = (Return r, h')
      ∧ h' !! r = Some res
      ∧ renders_to res (sa +:+ " " +:+ c +:+ " " +:+ sb).

(** [stringify] leaves the fragment sequence as it was. *)
Definition stringify_pure_as_stated : Prop :=
  ∀ this : Builder, selectors (Builder.stringify this).2 = selectors this.

(** [combine] leaves the fragment sequences of its operands as they were. *)
Definition combine_stateless_as_stated : Prop :=
  ∀ (h : heap) (A B : loc) (c : string) (a b : Builder),
    h !! A = Some a → h !! B = Some b →
    selectors <$> (cssSelectorBuilder.combine A c B h).2 !! A = Some (selectors a)
    ∧ selectors <$> (cssSelectorBuilder.combine A c B h).2 !! B = Some (selectors b).

(** [combine] fails on a combinator that is not one of the four tokens. *)
Definition combinator_validated_as_stated : Prop :=
  ∀ (h : heap) (A B : loc) (c : string),
    is_Some (h !! A) → is_Some (h !! B) →
    c ∉ combinator_tokens →
    ∃ e, (cssSelectorBuilder.combine A c B h).1 = Throw e.

(** ** Shape of the builders the interface produces *)

(** A chain the two checks accept: ranks in non-decreasing order, and each
    of element, id and pseudo-element at most once. *)
Definition valid_chain (ops : list (category * string)) : Prop :=
  Sorted Z.le ((λ op, spec_rank op.1) <$> ops)
  ∧ (∀ k, at_most_once k = true → (occurrences k ops ≤ 1)%nat).

(** The builder holding the raw fragments [rs] followed by the fragments of
    the chain [ops], with the error messages of the constructor. *)
Definition built (rs : list string) (ops : list (category * string)) : Builder :=
  set_selectors ((raw_fragment <$> rs) ++ (fragment <$> ops)) Builder.constructor.

(** Either no raw fragment, or the three pushed by one [combine]. *)
Definition raw_prefix (rs : list string) : Prop :=
  rs = [] ∨ ∃ s1 c s2, rs = [s1; " " +:+ c +:+ " "; s2].

Definition shaped (this : Builder) : Prop :=
  ∃ rs ops, this = built rs ops ∧ raw_prefix rs ∧ valid_chain ops.

(** * Properties *)

(** The examples of the source's documentation comment. *)

Example doc_example_1 :
  (r ← cssSelectorBuilder.id "main";
   call r (Builder.class "container");;
   call r (Builder.class "editable");;
   call r Builder.stringify) [] = (Return "#main.container.editable", [Builder.constructor]).
Proof. reflexivity. Qed.

Example doc_example_3 :
  fst ((a ← cssSelectorBuilder.element "div";
        call a (Builder.id "main");;
        call a (Builder.class "container");;
        call a (Builder.class "draggable");;
        b ← cssSelectorBuilder.element "table";
        call b (Builder.id "data");;
        c ← cssSelectorBuilder.element "tr";
        call c (Builder.pseudoClass "nth-of-type(even)");;
        d ← cssSelectorBuilder.element "td";
        call d (Builder.pseudoClass "nth-of-type(even)");;
        cd ← cssSelectorBuilder.combine c " " d;
        bcd ← cssSelectorBuilder.combine b "~" cd;
        abcd ← cssSelectorBuilder.combine a "+" bcd;
        call abcd Builder.stringify) [])
  = Return "div#main.container.draggable + table#data ~ tr:nth-of-type(even)   td:nth-of-type(even)".
Proof. reflexivity. Qed.

(** ** Strings *)

Lemma string_app_nil_r (s : string) : s +:+ "" = s.
Proof.
  induction s as [|c s IH]; [done|].
  change (String c (s +:+ "") = String c s). by rewrite IH.
Qed.

Lemma string_app_assoc (s1 s2 s3 : string) :
  (s1 +:+ s2) +:+ s3 = s1 +:+ (s2 +:+ s3).
Proof.
  induction s1 as [|c s1 IH]; [done|].
  change (String c ((s1 +:+ s2) +:+ s3) = String c (s1 +:+ (s2 +:+ s3))).
  by rewrite IH.
Qed.

(** ** The two checks and the loop of [stringify] *)

Lemma isPriorityRight_last (p : Z) (this : Builder) :
  Builder.isPriorityRight p this =
    match last (selectors this) with
    | Some obj => js_gt (priority obj) p
    | None => false
    end.
Proof.
  unfold Builder.isPriorityRight.
  rewrite last_lookup, Nat.sub_1_r.
  destruct (selectors this) as [|o l]; [done|].
  rewrite bool_decide_eq_false_2 by done. done.
Qed.

Lemma isSelectorExist_snoc (ty : string) (this : Builder) (l : list Selector) (o : Selector) :
  selectors this = l ++ [o] →
  Builder.isSelectorExist ty this =
    existsb (λ obj, bool_decide (type obj = ty)) l || bool_decide (type o = ty).
Proof.
  unfold Builder.isSelectorExist. intros ->.
  rewrite existsb_app. simpl. by rewrite orb_false_r.
Qed.

Lemma isSelectorExist_true (ty : string) (this : Builder) :
  Builder.isSelectorExist ty this = true ↔ ∃ o, o ∈ selectors this ∧ type o = ty.
Proof.
  unfold Builder.isSelectorExist. rewrite existsb_exists.
  split; intros (o & Ho & Hty); exists o.
  - apply list_elem_of_In in Ho. by apply bool_decide_eq_true_1 in Hty.
  - apply list_elem_of_In in Ho. by rewrite bool_decide_eq_true.
Qed.

Lemma stringify_loop_from (acc : string) (l : list Selector) :
  fold_left (λ str obj, str +:+ value obj) l acc
  = acc +:+ concat_strings (value <$> l).
Proof.
  unfold concat_strings.
  revert acc. induction l as [|o l IH]; intros acc; simpl.
  - by rewrite string_app_nil_r.
  - by rewrite IH, string_app_assoc.
Qed.

Lemma stringify_loop_concat (l : list Selector) :
  Builder.stringify_loop l = concat_strings (value <$> l).
Proof. unfold Builder.stringify_loop. by rewrite stringify_loop_from. Qed.

Lemma stringify_eq (this : Builder) :
  Builder.stringify this
  = (Return (concat_strings (value <$> selectors this)), set_selectors [] this).
Proof.
  unfold Builder.stringify, mbind, M_bind, gets, modify, mret, M_ret.
  by rewrite stringify_loop_concat.
Qed.

(** Each of the six methods, as one case analysis: the repeat check (only
    for element, id and pseudo-element) comes first, then the order check,
    then the push. *)
Lemma append_eq (k : category) (v : string) (this : Builder) :
  append k v this =
    if at_most_once k && Builder.isSelectorExist (type_name k) this
    then (Throw (Error (repeatError this)), this)
    else if Builder.isPriorityRight (spec_rank k) this
    then (Throw (Error (orderError this)), this)
    else (Return tt, set_selectors (selectors this ++ [fragment (k, v)]) this).
Proof.
  destruct k; simpl;
    unfold Builder.element, Builder.id, Builder.class, Builder.attr,
      Builder.pseudoClass, Builder.pseudoElement, Builder.add,
      mbind, M_bind, gets, modify, throw;
    repeat match goal with
      | |- context [Builder.isSelectorExist ?t ?b] =>
          destruct (Builder.isSelectorExist t b)
      | |- context [Builder.isPriorityRight ?p ?b] =>
          destruct (Builder.isPriorityRight p b)
      end; reflexivity.
Qed.

(** ** Facts about the vocabulary *)

Lemma type_name_inj : Inj (=) (=) type_name.
Proof. intros [] [] H; done. Qed.

Lemma set_selectors_id (this : Builder) : set_selectors (selectors this) this = this.
Proof. by destruct this. Qed.

Lemma fresh_builder_no_repeat (ty : string) :
  Builder.isSelectorExist ty Builder.constructor = false.
Proof. done. Qed.

Lemma fresh_builder_no_order (p : Z) :
  Builder.isPriorityRight p Builder.constructor = false.
Proof. done. Qed.

Lemma occurrences_cons (k : category) (op : category * string) ops :
  occurrences k (op :: ops)
  = ((if decide (op.1 = k) then 1 else 0) + occurrences k ops)%nat.
Proof.
  unfold occurrences. rewrite filter_cons.
  destruct (decide (op.1 = k)); done.
Qed.

Lemma occurrences_pos (k : category) (op : category * string) ops :
  op ∈ ops → op.1 = k → (1 ≤ occurrences k ops)%nat.
Proof.
  intros Hin Hk. unfold occurrences.
  assert (op ∈ filter (λ op, op.1 = k) ops) as Hf
    by (apply list_elem_of_filter; done).
  destruct (filter _ ops); [by apply not_elem_of_nil in Hf | simpl; lia].
Qed.

(** ** A chain of appends *)

Lemma chain_ready_step (this : Builder) (k : category) (v : string) ops :
  chain_ready this ((k, v) :: ops) →
  Forall (Z.le (spec_rank k)) ((λ op, spec_rank op.1) <$> ops) →
  (∀ k', at_most_once k' = true → occurrences k' ((k, v) :: ops) ≤ 1)%nat →
  chain_ready (set_selectors (selectors this ++ [fragment (k, v)]) this) ops.
Proof.
  intros [Hprio Hex] Hle Hocc. split.
  - intros op Hin. rewrite isPriorityRight_last. simpl. rewrite last_snoc. simpl.
    apply bool_decide_eq_false_2.
    rewrite Forall_fmap, Forall_forall in Hle.
    specialize (Hle op Hin). simpl in Hle. lia.
  - intros op Hin Hone.
    rewrite (isSelectorExist_snoc _ _ (selectors this) (fragment (k, v))) by done.
    apply orb_false_intro.
    + apply (Hex op); [by apply list_elem_of_further | done].
    + apply bool_decide_eq_false_2. simpl. intros Heq%type_name_inj.
      specialize (Hocc k). rewrite occurrences_cons in Hocc. simpl in Hocc.
      rewrite decide_True in Hocc by done.
      pose proof (occurrences_pos k op ops Hin (eq_sym Heq)).
      rewrite <- Heq in Hone. specialize (Hocc Hone). lia.
Qed.

Lemma appends_ready (ops : list (category * string)) :
  ∀ this,
    StronglySorted Z.le ((λ op, spec_rank op.1) <$> ops) →
    (∀ k, at_most_once k = true → occurrences k ops ≤ 1)%nat →
    chain_ready this ops →
    appends ops this
    = (Return tt, set_selectors (selectors this ++ (fragment <$> ops)) this).
Proof.
  induction ops as [|[k v] ops IH]; intros this Hsorted Hocc Hready.
  - simpl. by rewrite app_nil_r, set_selectors_id.
  - rewrite fmap_cons in Hsorted. apply StronglySorted_inv in Hsorted as [Hs Hle].
    pose proof (chain_ready_step _ _ _ _ Hready Hle Hocc) as Hnext.
    destruct Hready as [Hprio Hex].
    assert (∀ k', at_most_once k' = true → occurrences k' ops ≤ 1)%nat as Hocc'.
    { intros k' Hk'. specialize (Hocc k' Hk').
      rewrite occurrences_cons in Hocc. lia. }
    pose proof (Hprio (k, v) (list_elem_of_here _ _)) as Hp.
    pose proof (Hex (k, v) (list_elem_of_here _ _)) as He.
    simpl in Hp, He.
    simpl. unfold mbind, M_bind. rewrite append_eq, Hp.
    destruct (at_most_once k); simpl; [rewrite He by done|];
      rewrite IH by done; simpl; by rewrite <- app_assoc.
Qed.

(** ** Calls through references *)

Lemma call_eq {A} (r : loc) (m : M Builder A) (h : heap) (this : Builder) :
  h !! r = Some this →
  call r m h = ((m this).1, <[r := (m this).2]> h).
Proof. intros H. unfold call. rewrite H. by destruct (m this). Qed.

Lemma raw_eq (s : string) (this : Builder) :
  Builder.raw s this
  = (Return tt, set_selectors (selectors this ++ [raw_fragment s]) this).
Proof. reflexivity. Qed.

(** [combine] on two existing builders: the result is a fresh builder of
    three raw fragments, and both operands have been emptied.  When the two
    references denote one object, the second [stringify] finds it empty. *)
Lemma combine_eq (h : heap) (A B : loc) (c : string) (a b : Builder) :
  h !! A = Some a → h !! B = Some b →
  cssSelectorBuilder.combine A c B h =
    (Return (length h),
     <[length h :=
         set_selectors
           (raw_fragment <$>
              [concat_strings (value <$> selectors a);
               " " +:+ c +:+ " ";
               if decide (A = B) then ""
               else concat_strings (value <$> selectors b)])
           Builder.constructor]>
       (<[B := set_selectors [] b]>
          (<[A := set_selectors [] a]> (h ++ [Builder.constructor])))).
Proof.
  intros HA HB.
  pose proof (lookup_lt_Some _ _ _ HA) as HlA.
  pose proof (lookup_lt_Some _ _ _ HB) as HlB.
  set (K := Builder.constructor).
  assert ((h ++ [K]) !! length h = Some K) as Hr by by apply list_lookup_middle.
  unfold cssSelectorBuilder.combine, mbind, M_bind, new_Builder. fold K.
  rewrite (call_eq A _ _ a) by by apply lookup_app_l_Some.
  rewrite stringify_eq. simpl.
  rewrite (call_eq (length h) _ _ K)
    by (rewrite list_lookup_insert_ne by lia; done).
  rewrite raw_eq. simpl.
  erewrite (call_eq (length h)); last first.
  { apply list_lookup_insert_eq. rewrite length_insert, length_app. simpl. lia. }
  rewrite raw_eq. simpl. rewrite list_insert_insert_eq.
  assert (<[A:=set_selectors [] a]> (h ++ [K]) !! B
          = Some (if decide (A = B) then set_selectors [] a else b)) as HB'.
  { rewrite list_lookup_insert, length_app. simpl.
    destruct (decide (A = B)) as [->|Hne].
    - rewrite decide_True by (split; [done|lia]). done.
    - rewrite decide_False by tauto. by apply lookup_app_l_Some. }
  erewrite (call_eq B); last first.
  { rewrite list_lookup_insert_ne by lia. exact HB'. }
  rewrite stringify_eq. simpl.
  erewrite (call_eq (length h)); last first.
  { rewrite list_lookup_insert_ne by lia.
    apply list_lookup_insert_eq. rewrite length_insert, length_app. simpl. lia. }
  rewrite raw_eq. simpl.
  rewrite (list_insert_insert_ne _ B (length h)) by lia.
  rewrite list_insert_insert_eq.
  destruct (decide (A = B)) as [->|Hne]; [|done].
  assert (a = b) as -> by congruence. done.
Qed.

Lemma facade_eq (k : category) (v : string) (h : heap) :
  facade k v h
  = (Return (length h),
     h ++ [set_selectors [fragment (k, v)] Builder.constructor]).
Proof.
  assert (∀ m : M Builder unit,
    m Builder.constructor
      = (Return tt, set_selectors [fragment (k, v)] Builder.constructor) →
    (r ← new_Builder; call r m;; mret r) h
      = (Return (length h),
         h ++ [set_selectors [fragment (k, v)] Builder.constructor])) as Hgen.
  { intros m Hm. unfold mbind, M_bind, new_Builder.
    rewrite (call_eq (length h) _ _ Builder.constructor)
      by by apply list_lookup_middle.
    rewrite Hm. simpl. unfold mret, M_ret. f_equal.
    rewrite insert_app_r_alt by lia. by rewrite Nat.sub_diag. }
  destruct k; apply Hgen; reflexivity.
Qed.

(** ** The invariant of reachable heaps *)

Lemma last_dominates_unranked (this : Builder) :
  Forall (λ o, priority o = None) (selectors this) → last_dominates this.
Proof.
  intros Hall o m Ho Hm. rewrite Forall_forall in Hall.
  specialize (Hall o Ho). congruence.
Qed.

Lemma last_dominates_append (k : category) (v : string) (this : Builder) :
  last_dominates this → last_dominates (append k v this).2.
Proof.
  intros Hinv. rewrite append_eq.
  destruct (at_most_once k && _); [done|].
  destruct (Builder.isPriorityRight _ this) eqn:Hprio; [done|].
  intros o m Ho Hm. simpl in *. rewrite last_snoc.
  exists (fragment (k, v)), (spec_rank k). split_and!; [done..|].
  apply elem_of_app in Ho as [Ho|Ho%list_elem_of_singleton].
  - destruct (Hinv o m Ho Hm) as (l & p & Hl & Hp & Hle).
    rewrite isPriorityRight_last, Hl, Hp in Hprio. simpl in Hprio.
    apply bool_decide_eq_false_1 in Hprio. lia.
  - subst o. simpl in Hm. injection Hm as <-. lia.
Qed.

Lemma reachable_last_dominates (h : heap) :
  reachable h → Forall last_dominates h.
Proof.
  induction 1 as [|h c Hreach IH Hrefs]; [by constructor|].
  destruct c as [k v|r k v|r|r1 c r2]; simpl in *.
  - unfold mbind, M_bind. rewrite facade_eq. simpl.
    apply Forall_app. split; [done|]. apply Forall_singleton.
    intros o m Ho Hm. simpl in *. apply list_elem_of_singleton in Ho as ->.
    exists (fragment (k, v)), (spec_rank k). simpl in *.
    injection Hm as <-. split_and!; [done..|lia].
  - apply Forall_singleton, lookup_lt_is_Some_2 in Hrefs as [this Hthis].
    rewrite (call_eq _ _ _ _ Hthis). simpl.
    apply Forall_insert; [done|]. apply last_dominates_append.
    by eapply Forall_lookup_1.
  - apply Forall_singleton, lookup_lt_is_Some_2 in Hrefs as [this Hthis].
    unfold mbind, M_bind. rewrite (call_eq _ _ _ _ Hthis), stringify_eq. simpl.
    apply Forall_insert; [done|]. by apply last_dominates_unranked.
  - apply Forall_cons in Hrefs as [[a Ha]%lookup_lt_is_Some_2 Hrefs].
    apply Forall_singleton, lookup_lt_is_Some_2 in Hrefs as [b Hb].
    unfold mbind, M_bind. rewrite (combine_eq _ _ _ _ _ _ Ha Hb). simpl.
    repeat apply Forall_insert.
    + apply Forall_app. split; [done|]. apply Forall_singleton.
      by apply last_dominates_unranked.
    + by apply last_dominates_unranked.
    + by apply last_dominates_unranked.
    + apply last_dominates_unranked. simpl. repeat constructor.
Qed.

Lemma max_rank_elem (this : Builder) (m : Z) :
  max_rank this = Some m → ∃ o, o ∈ selectors this ∧ priority o = Some m.
Proof.
  unfold max_rank. intros Hmax.
  assert (m ∈ ranks this) as Hin.
  { destruct (ranks this) as [|r rs]; [done|]. injection Hmax as <-.
    induction rs as [|r' rs IH]; simpl; [apply list_elem_of_here|].
    destruct (Z.max_spec r' (foldr Z.max r rs)) as [[_ ->]|[_ ->]].
    - apply elem_of_cons in IH as [->|IH];
        [apply list_elem_of_here | by do 2 apply list_elem_of_further].
    - apply list_elem_of_further, list_elem_of_here. }
  unfold ranks in Hin. apply list_elem_of_omap in Hin. done.
Qed.

Lemma last_rank_last (this : Builder) (p : Z) (l : Selector) :
  last_rank this = Some p → last (selectors this) = Some l →
  priority l = None ∨ priority l = Some p.
Proof.
  unfold last_rank, ranks. intros Hp (sel & Hsel)%last_Some.
  rewrite Hsel, omap_app in Hp. simpl in Hp.
  destruct (priority l) as [q|]; [|by left].
  simpl in Hp. rewrite last_snoc in Hp. by right.
Qed.

Lemma div_main_reachable : reachable [div_main].
Proof.
  change [div_main]
    with (run (Append 0%nat Id "main") (run (New Element "div") []).2).2.
  apply reachable_step; [apply reachable_step|].
  - apply reachable_init.
  - constructor.
  - repeat constructor.
Qed.

(** A chain that returns has run each of its appends to a return. *)
Lemma appends_return_each (pre : list (category * string)) :
  ∀ (op : category * string) post this this',
    appends (pre ++ op :: post) this = (Return tt, this') →
    ∃ mid, appends pre this = (Return tt, mid)
           ∧ (append op.1 op.2 mid).1 = Return tt.
Proof.
  induction pre as [|[k v] pre IH]; intros [k' v'] post this this' Hrun.
  - exists this. split; [done|]. simpl in *. unfold mbind, M_bind in Hrun.
    by destruct (append k' v' this) as [[[]|e] s'].
  - simpl in *. unfold mbind, M_bind in *.
    destruct (append k v this) as [[[]|e] s']; [|done].
    exact (IH (k', v') post s' this' Hrun).
Qed.

Lemma main_container_reachable : reachable [main_container].
Proof.
  change [main_container]
    with (run (Append 0%nat Class "container") (run (New Id "main") []).2).2.
  apply reachable_step; [apply reachable_step|].
  - apply reachable_init.
  - constructor.
  - repeat constructor.
Qed.

(** * The claims *)

(** ** C1 *)

(** C1: a chain of appends in non-decreasing rank order, with at most one
    element, one id and one pseudo-element, runs on a fresh builder without
    throwing (the chain returns, so every append in it returned), and
    [stringify] then returns the formatted texts concatenated in append
    order. *)
Theorem C1_ranked_chain_renders (ops : list (category * string)) :
  Sorted Z.le ((λ op, spec_rank op.1) <$> ops) →
  (occurrences Element ops ≤ 1)%nat →
  (occurrences Id ops ≤ 1)%nat →
  (occurrences PseudoElement ops ≤ 1)%nat →
  ∃ this,
    appends ops Builder.constructor = (Return tt, this)
    ∧ (∀ pre op post, ops = pre ++ op :: post →
         ∃ mid, appends pre Builder.constructor = (Return tt, mid)
                ∧ (append op.1 op.2 mid).1 = Return tt)
    ∧ Builder.stringify this
      = (Return (concat_strings ((λ op, spec_text op.1 op.2) <$> ops)),
         Builder.constructor).
Proof.
  intros Hsorted He Hi Hp.
  apply Sorted_StronglySorted in Hsorted; [|intros x y z; lia].
  assert (appends ops Builder.constructor
          = (Return tt, set_selectors (fragment <$> ops) Builder.constructor))
    as Hrun.
  { apply appends_ready; [done| |].
    - intros [] Hk; done.
    - split; intros;
        [apply fresh_builder_no_order | apply fresh_builder_no_repeat]. }
  eexists. split; [exact Hrun|]. split.
  - intros pre op post ->. exact (appends_return_each pre op post _ _ Hrun).
  - rewrite stringify_eq. simpl. by rewrite <- list_fmap_compose.
Qed.

Lemma C1_ranked_chain_renders_witness :
  ∃ this,
    appends [(Element, "div"); (Id, "main"); (Class, "container");
             (Class, "draggable"); (PseudoElement, "after")]
      Builder.constructor = (Return tt, this)
    ∧ (∀ pre op post,
         [(Element, "div"); (Id, "main"); (Class, "container");
          (Class, "draggable"); (PseudoElement, "after")]
           = pre ++ op :: post →
         ∃ mid, appends pre Builder.constructor = (Return tt, mid)
                ∧ (append op.1 op.2 mid).1 = Return tt)
    ∧ Builder.stringify this
      = (Return "div#main.container.draggable::after", Builder.constructor).
Proof.
  apply (C1_ranked_chain_renders
           [(Element, "div"); (Id, "main"); (Class, "container");
            (Class, "draggable"); (PseudoElement, "after")]).
  - repeat constructor; simpl; lia.
  - vm_compute. lia.
  - vm_compute. lia.
  - vm_compute. lia.
Defined.

(** ** C2 *)

(** C2, as the specification states it, fails: on the reachable builder
    [element('div').id('main')] the maximum rank is 2, an append of
    [element] has rank 1, and the call throws the repeat error, not the
    order error. *)
Lemma C2_order_rule_counterexample : ¬ order_rule_as_stated.
Proof.
  intros Hclaim.
  destruct (Hclaim [div_main] 0%nat div_main Element "span"
              div_main_reachable eq_refl) as [Hlow _].
  specialize (Hlow 2 eq_refl). vm_compute in Hlow.
  specialize (Hlow eq_refl). discriminate Hlow.
Qed.

(** C2, amended: on every builder of a reachable heap, an append whose rank
    is below the maximum rank present throws and leaves the builder as it
    was; the error is the repeat error when the category is one of
    element, id, pseudo-element and a fragment of it is present (that check
    runs first), and the order error otherwise.  An append whose rank is at
    least the rank of the last ranked fragment passes the order check. *)
Theorem C2_order_check (h : heap) (r : loc) (this : Builder)
    (k : category) (v : string) :
  reachable h → h !! r = Some this →
  (∀ m, max_rank this = Some m → spec_rank k < m →
     append k v this
     = (Throw (Error (if at_most_once k
                         && Builder.isSelectorExist (type_name k) this
                      then repeatError this else orderError this)),
        this))
  ∧ (∀ p, last_rank this = Some p → p ≤ spec_rank k →
       Builder.isPriorityRight (spec_rank k) this = false).
Proof.
  intros Hreach Hthis. split.
  - intros m Hmax Hlt.
    apply reachable_last_dominates in Hreach.
    pose proof (Forall_lookup_1 _ _ _ _ Hreach Hthis) as Hinv.
    destruct (max_rank_elem _ _ Hmax) as (o & Ho & Hm).
    destruct (Hinv o m Ho Hm) as (l & p & Hl & Hp & Hle).
    rewrite append_eq.
    destruct (at_most_once k && _); [done|].
    rewrite isPriorityRight_last, Hl, Hp. simpl.
    rewrite bool_decide_eq_true_2 by lia. done.
  - intros p Hp Hle. rewrite isPriorityRight_last.
    destruct (last (selectors this)) as [l|] eqn:Hl; [|done].
    destruct (last_rank_last _ _ _ Hp Hl) as [-> | ->]; [done|].
    simpl. apply bool_decide_eq_false_2. lia.
Qed.

Lemma C2_order_check_witness :
  append Element "span" div_main
    = (Throw (Error (repeatError div_main)), div_main)
  ∧ append Element "span" main_container
    = (Throw (Error (orderError main_container)), main_container)
  ∧ Builder.isPriorityRight (spec_rank Class) div_main = false.
Proof.
  split; [|split].
  - apply (proj1 (C2_order_check [div_main] 0%nat div_main Element "span"
                    div_main_reachable eq_refl) 2);
      [reflexivity | simpl; lia].
  - apply (proj1 (C2_order_check [main_container] 0%nat main_container
                    Element "span" main_container_reachable eq_refl) 3);
      [reflexivity | simpl; lia].
  - apply (proj2 (C2_order_check [div_main] 0%nat div_main Class "container"
                    div_main_reachable eq_refl) 2);
      [reflexivity | simpl; lia].
Defined.

(** ** C3 *)

(** C3: on any builder that already holds a fragment tagged element, id or
    pseudo-element, wherever it sits and whatever else is there, the append
    of the same category throws the repeat error and changes nothing. *)
Theorem C3_second_unique_fragment_rejected (this : Builder)
    (k : category) (v : string) :
  k ∈ [Element; Id; PseudoElement] →
  (∃ o, o ∈ selectors this ∧ type o = type_name k) →
  append k v this = (Throw (Error (repeatError this)), this).
Proof.
  intros Hk Hex. apply isSelectorExist_true in Hex.
  rewrite append_eq, Hex.
  assert (at_most_once k = true) as ->; [|done].
  repeat (apply elem_of_cons in Hk as [->|Hk]; [done|]).
  by apply elem_of_nil in Hk.
Qed.

Lemma C3_second_unique_fragment_rejected_witness :
  append Element "span"
    (set_selectors
       [raw_fragment "x"; fragment (Element, "div"); fragment (PseudoClass, "hover")]
       Builder.constructor)
  = (Throw (Error (repeatError Builder.constructor)),
     set_selectors
       [raw_fragment "x"; fragment (Element, "div"); fragment (PseudoClass, "hover")]
       Builder.constructor).
Proof.
  apply (C3_second_unique_fragment_rejected
           (set_selectors
              [raw_fragment "x"; fragment (Element, "div");
               fragment (PseudoClass, "hover")]
              Builder.constructor) Element "span").
  - apply list_elem_of_here.
  - exists (fragment (Element, "div")). split; [|reflexivity].
    apply list_elem_of_further, list_elem_of_here.
Defined.

(** ** C4 *)

(** C4, as the specification states it, fails when both arguments are the
    same builder: [combine(a, '+', a)] with [a = element('div').id('main')]
    renders to ["div#main + "], because the first [stringify] has emptied
    [a] before the second one reads it. *)
Lemma C4_combine_render_counterexample : ¬ combine_render_as_stated.
Proof.
  intros Hclaim.
  destruct (Hclaim [div_main] 0%nat 0%nat "+" div_main div_main
              "div#main" "div#main" eq_refl eq_refl eq_refl eq_refl)
    as (r & h' & res & Hrun & Hres & Hrender).
  vm_compute in Hrun. injection Hrun as <- <-.
  vm_compute in Hres. injection Hres as <-.
  vm_compute in Hrender. discriminate Hrender.
Qed.

(** C4, amended: for two distinct builders, [combine(A, c, B)] returns a new
    builder that renders to [render(A) + " " + c + " " + render(B)] (three
    spaces between the renders when [c] is a space); when [A] and [B] are the
    same builder the right-hand render is empty. *)
Theorem C4_combine_renders (h : heap) (A B : loc) (c : string)
    (a b : Builder) (sa sb : string) :
  h !! A = Some a → h !! B = Some b →
  renders_to a sa → renders_to b sb →
  ∃ r h' res,
    cssSelectorBuilder.combine A c B h = (Return r, h')
    ∧ h !! r = None
    ∧ h' !! r = Some res
    ∧ renders_to res
        (sa +:+ " " +:+ c +:+ " " +:+ (if decide (A = B) then "" else sb))
    ∧ (A ≠ B → c = " " → renders_to res (sa +:+ "   " +:+ sb)).
Proof.
  intros HA HB Hsa Hsb.
  unfold renders_to in Hsa, Hsb. rewrite stringify_eq in Hsa, Hsb.
  simpl in Hsa, Hsb. injection Hsa as <-. injection Hsb as <-.
  pose proof (lookup_lt_Some _ _ _ HA) as HlA.
  pose proof (lookup_lt_Some _ _ _ HB) as HlB.
  eexists _, _, _. split; [by apply combine_eq|].
  split; [by apply lookup_ge_None|].
  split; [apply list_lookup_insert_eq; rewrite !length_insert, length_app;
          simpl; lia|].
  assert (∀ s1 s2 s3,
    renders_to
      (set_selectors (raw_fragment <$> [s1; " " +:+ s2 +:+ " "; s3])
         Builder.constructor)
      (s1 +:+ " " +:+ s2 +:+ " " +:+ s3)) as Hcat.
  { intros s1 s2 s3. unfold renders_to. rewrite stringify_eq.
    unfold concat_strings. simpl.
    by rewrite string_app_nil_r, !string_app_assoc. }
  split; [apply Hcat|].
  intros Hne ->. rewrite decide_False by done. apply Hcat.
Qed.

Lemma C4_combine_renders_witness :
  ∃ r h' res,
    cssSelectorBuilder.combine 0%nat "+" 1%nat [div_main; table_data]
      = (Return r, h')
    ∧ [div_main; table_data] !! r = None
    ∧ h' !! r = Some res
    ∧ renders_to res "div#main + table#data"
    ∧ (0%nat ≠ 1%nat → "+" = " " → renders_to res "div#main   table#data").
Proof.
  apply (C4_combine_renders [div_main; table_data] 0%nat 1%nat "+"
           div_main table_data "div#main" "table#data");
    reflexivity.
Defined.

(** ** C5 *)

(** C5, as the specification states it, fails: after [stringify] the
    builder [element('div').id('main')] holds no fragment. *)
Lemma C5_stringify_pure_counterexample : ¬ stringify_pure_as_stated.
Proof. intros Hclaim. specialize (Hclaim div_main). discriminate Hclaim. Qed.

(** C5, amended: [stringify] returns the concatenated texts and replaces the
    fragment sequence by the empty one (the other fields are kept); the
    sequence is the same before and after exactly when it was empty. *)
Theorem C5_stringify_clears (this : Builder) :
  Builder.stringify this
    = (Return (concat_strings (value <$> selectors this)),
       set_selectors [] this)
  ∧ (selectors (Builder.stringify this).2 = selectors this
     ↔ selectors this = []).
Proof.
  rewrite stringify_eq. split; [done|]. simpl. split; intros H; by rewrite H.
Qed.

(** ** C6 *)

(** C6, as the specification states it, fails: after
    [combine(a, '+', b)] with [a = element('div').id('main')] and
    [b = element('table').id('data')], [a] holds no fragment. *)
Lemma C6_combine_stateless_counterexample : ¬ combine_stateless_as_stated.
Proof.
  intros Hclaim.
  destruct (Hclaim [div_main; table_data] 0%nat 1%nat "+" div_main table_data
              eq_refl eq_refl) as [HA _].
  vm_compute in HA. discriminate HA.
Qed.

(** C6, amended: [combine(A, c, B)] returns a new builder, behind a
    reference that denoted no builder before the call, and leaves both
    operands with an empty fragment sequence; an operand is unchanged
    exactly when it was empty before the call.  Every other builder of the
    heap is untouched: the heap grows by the one new builder, and every
    builder that existed before, the operands apart, is as it was. *)
Theorem C6_combine_empties_operands (h : heap) (A B : loc) (c : string)
    (a b : Builder) :
  h !! A = Some a → h !! B = Some b →
  ∃ r h',
    cssSelectorBuilder.combine A c B h = (Return r, h')
    ∧ h' !! A = Some (set_selectors [] a)
    ∧ h' !! B = Some (set_selectors [] b)
    ∧ (h' !! A = Some a ↔ selectors a = [])
    ∧ (h' !! B = Some b ↔ selectors b = [])
    ∧ (∀ j, j ≠ A → j ≠ B → j ≠ r → h' !! j = h !! j)
    ∧ h !! r = None
    ∧ is_Some (h' !! r)
    ∧ length h' = S (length h)
    ∧ (∀ j x, j ≠ A → j ≠ B → h !! j = Some x → h' !! j = Some x).
Proof.
  intros HA HB.
  pose proof (lookup_lt_Some _ _ _ HA) as HlA.
  pose proof (lookup_lt_Some _ _ _ HB) as HlB.
  assert (∀ x : Builder, set_selectors [] x = x ↔ selectors x = []) as Hclr.
  { intros x. split; [by intros <-|]. intros H. by rewrite <- H, set_selectors_id. }
  eexists _, _. split; [by apply combine_eq|].
  assert (<[length h:=set_selectors
             (raw_fragment <$>
                [concat_strings (value <$> selectors a); " " +:+ c +:+ " ";
                 if decide (A = B) then ""
                 else concat_strings (value <$> selectors b)])
             Builder.constructor]>
            (<[B:=set_selectors [] b]>
               (<[A:=set_selectors [] a]> (h ++ [Builder.constructor]))) !! A
          = Some (set_selectors [] a)) as HA'.
  { rewrite list_lookup_insert_ne by lia.
    destruct (decide (A = B)) as [->|Hne].
    - assert (a = b) as -> by congruence.
      apply list_lookup_insert_eq. rewrite length_insert, length_app. lia.
    - rewrite list_lookup_insert_ne by done.
      apply list_lookup_insert_eq. rewrite length_app. lia. }
  assert (<[length h:=set_selectors
             (raw_fragment <$>
                [concat_strings (value <$> selectors a); " " +:+ c +:+ " ";
                 if decide (A = B) then ""
                 else concat_strings (value <$> selectors b)])
             Builder.constructor]>
            (<[B:=set_selectors [] b]>
               (<[A:=set_selectors [] a]> (h ++ [Builder.constructor]))) !! B
          = Some (set_selectors [] b)) as HB'.
  { rewrite list_lookup_insert_ne by lia.
    apply list_lookup_insert_eq. rewrite length_insert, length_app. lia. }
  split_and!; [done|done|..].
  - rewrite HA'. rewrite <- Hclr. split; congruence.
  - rewrite HB'. rewrite <- Hclr. split; congruence.
  - intros j HjA HjB Hjr. rewrite !list_lookup_insert_ne by done.
    destruct (decide (j < length h)%nat).
    + by apply lookup_app_l.
    + rewrite !(proj2 (lookup_ge_None _ _)); [done|lia|rewrite length_app; simpl; lia].
  - by apply lookup_ge_None.
  - apply lookup_lt_is_Some_2. rewrite !length_insert, length_app. simpl. lia.
  - rewrite !length_insert, length_app. simpl. lia.
  - intros j x HjA HjB Hj.
    pose proof (lookup_lt_Some _ _ _ Hj) as Hlj.
    rewrite !list_lookup_insert_ne by lia. by apply lookup_app_l_Some.
Qed.

Lemma C6_combine_empties_operands_witness :
  ∃ r h',
    cssSelectorBuilder.combine 0%nat "+" 1%nat [div_main; table_data]
      = (Return r, h')
    ∧ h' !! 0%nat = Some (set_selectors [] div_main)
    ∧ h' !! 1%nat = Some (set_selectors [] table_data)
    ∧ (h' !! 0%nat = Some div_main ↔ selectors div_main = [])
    ∧ (h' !! 1%nat = Some table_data ↔ selectors table_data = [])
    ∧ (∀ j, j ≠ 0%nat → j ≠ 1%nat → j ≠ r →
         h' !! j = [div_main; table_data] !! j)
    ∧ [div_main; table_data] !! r = None
    ∧ is_Some (h' !! r)
    ∧ length h' = S (length [div_main; table_data])
    ∧ (∀ j x, j ≠ 0%nat → j ≠ 1%nat →
         [div_main; table_data] !! j = Some x → h' !! j = Some x).
Proof.
  apply (C6_combine_empties_operands [div_main; table_data] 0%nat 1%nat "+"
           div_main table_data); reflexivity.
Defined.

(** ** C7 *)

(** C7: an append that throws leaves the builder exactly as it was (all
    fields, so in particular the fragment sequence), the error is the
    repeat error or the order error, and the heap the builder lives in is
    unchanged as a whole. *)
Theorem C7_failed_append_atomic (k : category) (v : string)
    (this : Builder) (e : exn) :
  (append k v this).1 = Throw e →
  (append k v this).2 = this
  ∧ (e = Error (repeatError this) ∨ e = Error (orderError this))
  ∧ (∀ (h : heap) (r : loc), h !! r = Some this →
       call r (append k v) h = (Throw e, h)).
Proof.
  intros Hthrow.
  assert (append k v this = (Throw e, this)
          ∧ (e = Error (repeatError this) ∨ e = Error (orderError this)))
    as [Heq He].
  { rewrite append_eq in *.
    destruct (at_most_once k && _); simpl in *.
    - injection Hthrow as <-. auto.
    - destruct (Builder.isPriorityRight _ this); simpl in *; [|done].
      injection Hthrow as <-. auto. }
  split_and!; [by rewrite Heq | done |].
  intros h r Hr. rewrite (call_eq _ _ _ _ Hr), Heq. simpl.
  by rewrite list_insert_id.
Qed.

Lemma C7_failed_append_atomic_witness :
  (append Id "other" main_container).2 = main_container
  ∧ (Error (repeatError main_container) = Error (repeatError main_container)
     ∨ Error (repeatError main_container) = Error (orderError main_container))
  ∧ (∀ (h : heap) (r : loc), h !! r = Some main_container →
       call r (append Id "other") h
       = (Throw (Error (repeatError main_container)), h)).
Proof.
  apply (C7_failed_append_atomic Id "other" main_container
           (Error (repeatError main_container))).
  reflexivity.
Defined.

(** ** C8 *)

(** C8, as the specification states it, fails: [combine(a, 'x', b)] returns
    a builder, although ['x'] is none of the four combinator tokens. *)
Lemma C8_combinator_validated_counterexample : ¬ combinator_validated_as_stated.
Proof.
  intros Hclaim.
  destruct (Hclaim [div_main; table_data] 0%nat 1%nat "x") as [e He].
  - by eexists.
  - by eexists.
  - intros Hin. repeat (apply elem_of_cons in Hin as [Hin|Hin]; [done|]).
    by apply elem_of_nil in Hin.
  - vm_compute in He. discriminate He.
Qed.

(** C8, amended: [combine] does not look at its combinator.  For every pair
    of existing builders and every string [c], one of the four tokens or
    not, it returns a new builder whose middle fragment is [c] with one
    space on each side; it never throws. *)
Theorem C8_combine_accepts_any_combinator (h : heap) (A B : loc) (c : string) :
  is_Some (h !! A) → is_Some (h !! B) →
  ∃ r h' res,
    cssSelectorBuilder.combine A c B h = (Return r, h')
    ∧ h' !! r = Some res
    ∧ selectors res !! 1%nat = Some (raw_fragment (" " +:+ c +:+ " ")).
Proof.
  intros [a HA] [b HB].
  pose proof (lookup_lt_Some _ _ _ HA) as HlA.
  eexists _, _, _. split; [by apply combine_eq|]. split.
  - apply list_lookup_insert_eq. rewrite !length_insert, length_app. simpl. lia.
  - done.
Qed.

Lemma C8_combine_accepts_any_combinator_witness :
  ("x" ∉ combinator_tokens)
  ∧ (∃ r h' res,
       cssSelectorBuilder.combine 0%nat "x" 1%nat [div_main; table_data]
         = (Return r, h')
       ∧ h' !! r = Some res
       ∧ selectors res !! 1%nat = Some (raw_fragment " x ")).
Proof.
  split.
  - intros Hin. repeat (apply elem_of_cons in Hin as [Hin|Hin]; [done|]).
    by apply elem_of_nil in Hin.
  - apply (C8_combine_accepts_any_combinator [div_main; table_data]
             0%nat 1%nat "x"); by eexists.
Defined.

(** ** C9 *)

(** C9: [stringify] leaves the builder with an empty fragment sequence,
    whatever it held; a second [stringify] straight after the first returns
    the empty string. *)
Theorem C9_stringify_one_shot (this : Builder) :
  selectors (Builder.stringify this).2 = []
  ∧ (Builder.stringify;; Builder.stringify) this
    = (Return "", (Builder.stringify this).2)
  ∧ (∀ (h : heap) (r : loc), h !! r = Some this →
       (call r Builder.stringify;; call r Builder.stringify) h
       = (Return "", <[r := set_selectors [] this]> h)).
Proof.
  split_and!.
  - by rewrite stringify_eq.
  - unfold mbind, M_bind. by rewrite !stringify_eq.
  - intros h r Hr. unfold mbind, M_bind.
    rewrite (call_eq _ _ _ _ Hr), stringify_eq. simpl.
    erewrite call_eq; last first.
    { apply list_lookup_insert_eq. by eapply lookup_lt_Some. }
    rewrite stringify_eq. simpl. by rewrite list_insert_insert_eq.
Qed.

Lemma C9_stringify_one_shot_witness :
  (call 0%nat Builder.stringify;; call 0%nat Builder.stringify) [div_main]
  = (Return "", [set_selectors [] div_main]).
Proof.
  apply (proj2 (proj2 (C9_stringify_one_shot div_main)) [div_main] 0%nat).
  reflexivity.
Defined.

(** ** C10 *)

(** C10: the builder returned by [combine] holds three fragments tagged
    ['raw'] without priority, and one append of any of the six categories
    on it returns: neither check fires, and the fragment is pushed after
    the raw ones. *)
Theorem C10_append_after_combine (h : heap) (A B : loc) (c : string)
    (k : category) (v : string) :
  is_Some (h !! A) → is_Some (h !! B) →
  ∃ r h' res,
    cssSelectorBuilder.combine A c B h = (Return r, h')
    ∧ h' !! r = Some res
    ∧ Forall (λ o, type o = "raw" ∧ priority o = None) (selectors res)
    ∧ append k v res
      = (Return tt, set_selectors (selectors res ++ [fragment (k, v)]) res)
    ∧ call r (append k v) h'
      = (Return tt,
         <[r := set_selectors (selectors res ++ [fragment (k, v)]) res]> h').
Proof.
  intros [a HA] [b HB].
  pose proof (lookup_lt_Some _ _ _ HA) as HlA.
  eexists _, _, _. split; [by apply combine_eq|].
  assert (∀ s1 s2 s3,
    append k v (set_selectors (raw_fragment <$> [s1; s2; s3]) Builder.constructor)
    = (Return tt,
       set_selectors
         (selectors (set_selectors (raw_fragment <$> [s1; s2; s3])
                       Builder.constructor) ++ [fragment (k, v)])
         (set_selectors (raw_fragment <$> [s1; s2; s3]) Builder.constructor)))
    as Happ.
  { intros s1 s2 s3. rewrite append_eq. by destruct k. }
  split_and!.
  - apply list_lookup_insert_eq. rewrite !length_insert, length_app. simpl. lia.
  - repeat constructor.
  - apply Happ.
  - erewrite call_eq; last first.
    { apply list_lookup_insert_eq. rewrite !length_insert, length_app. simpl. lia. }
    by rewrite Happ.
Qed.

Lemma C10_append_after_combine_witness :
  ∃ r h' res,
    cssSelectorBuilder.combine 0%nat "+" 1%nat [div_main; table_data]
      = (Return r, h')
    ∧ h' !! r = Some res
    ∧ Forall (λ o, type o = "raw" ∧ priority o = None) (selectors res)
    ∧ append Element "span" res
      = (Return tt,
         set_selectors (selectors res ++ [fragment (Element, "span")]) res)
    ∧ call r (append Element "span") h'
      = (Return tt,
         <[r := set_selectors (selectors res ++ [fragment (Element, "span")]) res]> h').
Proof.
  apply (C10_append_after_combine [div_main; table_data] 0%nat 1%nat "+"
           Element "span"); by eexists.
Defined.

(** * Further properties of the builder *)

(** ** Chains and the two checks *)

Lemma concat_strings_app (l1 l2 : list string) :
  concat_strings (l1 ++ l2) = concat_strings l1 +:+ concat_strings l2.
Proof.
  unfold concat_strings. induction l1 as [|s l1 IH]; simpl; [done|].
  by rewrite IH, string_app_assoc.
Qed.

Lemma occurrences_app (k : category) (l1 l2 : list (category * string)) :
  occurrences k (l1 ++ l2) = (occurrences k l1 + occurrences k l2)%nat.
Proof. unfold occurrences. by rewrite filter_app, length_app. Qed.

Lemma occurrences_zero (k : category) (ops : list (category * string)) :
  k ∉ ops.*1 → occurrences k ops = 0%nat.
Proof.
  induction ops as [|op ops IH]; [done|].
  rewrite fmap_cons, not_elem_of_cons, occurrences_cons. intros [Hne Hnin].
  rewrite decide_False by done. by rewrite IH.
Qed.

Lemma occurrences_elem (k : category) (ops : list (category * string)) :
  k ∈ ops.*1 → (1 ≤ occurrences k ops)%nat.
Proof.
  intros (op & -> & Hin)%list_elem_of_fmap. by eapply occurrences_pos.
Qed.

Lemma sorted_le_strongly (l : list Z) : Sorted Z.le l ↔ StronglySorted Z.le l.
Proof.
  split; [|apply StronglySorted_Sorted].
  apply Sorted_StronglySorted. intros x y z. lia.
Qed.

Lemma valid_chain_nil : valid_chain [].
Proof. split; [constructor|]. intros k _. unfold occurrences. simpl. lia. Qed.

Lemma valid_chain_app_l (l1 l2 : list (category * string)) :
  valid_chain (l1 ++ l2) → valid_chain l1.
Proof.
  intros [Hs Hocc]. split.
  - rewrite fmap_app, sorted_le_strongly in Hs.
    apply sorted_le_strongly. by eapply StronglySorted_app_1_l.
  - intros k Hk. specialize (Hocc k Hk). rewrite occurrences_app in Hocc. lia.
Qed.

(** What one more append asks of a valid chain. *)
Lemma valid_chain_snoc (ops : list (category * string)) (k : category) (v : string) :
  valid_chain (ops ++ [(k, v)]) ↔
    valid_chain ops
    ∧ (∀ op, last ops = Some op → spec_rank op.1 ≤ spec_rank k)
    ∧ (at_most_once k = true → k ∉ ops.*1).
Proof.
  split.
  - intros Hvalid. split; [by eapply valid_chain_app_l|].
    destruct Hvalid as [Hs Hocc]. split.
    + intros op (ops' & ->)%last_Some.
      rewrite !fmap_app, sorted_le_strongly in Hs. simpl in Hs.
      eapply (StronglySorted_app_1_elem_of _ _ _ _ _ Hs).
      * apply elem_of_app. right. apply list_elem_of_here.
      * apply list_elem_of_here.
    + intros Hk Hin%occurrences_elem. specialize (Hocc k Hk).
      rewrite occurrences_app, (occurrences_cons k (k, v)) in Hocc.
      simpl in Hocc. rewrite decide_True in Hocc by done. lia.
  - intros ([Hs Hocc] & Hlast & Hnew). split.
    + rewrite fmap_app. apply sorted_le_strongly. simpl.
      apply sorted_le_strongly in Hs.
      apply StronglySorted_app_2; [|done|repeat constructor].
      intros x1 x2 Hx1 ->%list_elem_of_singleton.
      apply list_elem_of_fmap in Hx1 as (op1 & -> & Hop1).
      destruct (last ops) as [op|] eqn:Hl;
        [|apply last_None in Hl; subst ops; by apply not_elem_of_nil in Hop1].
      specialize (Hlast op eq_refl).
      apply last_Some in Hl as (ops' & ->).
      apply elem_of_app in Hop1 as [Hop1| ->%list_elem_of_singleton]; [|done].
      rewrite fmap_app in Hs. simpl in Hs.
      etrans; [|exact Hlast].
      eapply (StronglySorted_app_1_elem_of _ _ _ _ _ Hs).
      * apply list_elem_of_fmap. by exists op1.
      * apply list_elem_of_here.
    + intros k' Hk'. rewrite occurrences_app, (occurrences_cons k' (k, v)).
      simpl. specialize (Hocc k' Hk').
      destruct (decide (k = k')) as [<-|Hne]; [|unfold occurrences at 2; simpl; lia].
      rewrite (occurrences_zero k ops) by auto. unfold occurrences. simpl. lia.
Qed.

(** The two checks on a builder of known content. *)

Lemma isSelectorExist_built (rs : list string) (ops : list (category * string))
    (k : category) :
  Builder.isSelectorExist (type_name k) (built rs ops) = true ↔ k ∈ ops.*1.
Proof.
  rewrite isSelectorExist_true. simpl. split.
  - intros (o & [Ho|Ho]%elem_of_app & Hty).
    + apply list_elem_of_fmap in Ho as (s & -> & _). by destruct k.
    + apply list_elem_of_fmap in Ho as (op & -> & Hop).
      simpl in Hty. apply type_name_inj in Hty as <-.
      apply list_elem_of_fmap. by exists op.
  - intros (op & -> & Hop)%list_elem_of_fmap.
    exists (fragment op). split; [|done].
    apply elem_of_app. right. apply list_elem_of_fmap. by exists op.
Qed.

Lemma isPriorityRight_built (rs : list string) (ops : list (category * string))
    (p : Z) :
  Builder.isPriorityRight p (built rs ops)
  = match last ops with
    | Some op => bool_decide (p < spec_rank op.1)
    | None => false
    end.
Proof.
  rewrite isPriorityRight_last. simpl.
  destruct ops as [|op ops _] using rev_ind.
  - simpl. rewrite app_nil_r.
    destruct (last (raw_fragment <$> rs)) as [o|] eqn:Hl; [|done].
    apply last_Some_elem_of, list_elem_of_fmap in Hl as (s & -> & _). done.
  - rewrite fmap_app, app_assoc. simpl. by rewrite !last_snoc.
Qed.

Lemma append_built (rs : list string) (ops : list (category * string))
    (k : category) (v : string) :
  (valid_chain ops → valid_chain (ops ++ [(k, v)]) →
     append k v (built rs ops) = (Return tt, built rs (ops ++ [(k, v)])))
  ∧ (∀ u this', append k v (built rs ops) = (Return u, this') →
       (valid_chain ops → valid_chain (ops ++ [(k, v)]))
       ∧ this' = built rs (ops ++ [(k, v)]))
  ∧ (∀ e this', append k v (built rs ops) = (Throw e, this') →
       ¬ valid_chain (ops ++ [(k, v)]) ∧ this' = built rs ops).
Proof.
  rewrite append_eq, isPriorityRight_built.
  assert (set_selectors (selectors (built rs ops) ++ [fragment (k, v)]) (built rs ops)
          = built rs (ops ++ [(k, v)])) as ->.
  { unfold built. simpl. by rewrite fmap_app, app_assoc. }
  destruct (at_most_once k && _) eqn:Hrep.
  - apply andb_true_iff in Hrep as [Hk Hex%isSelectorExist_built].
    split_and!.
    + intros _ (_ & _ & Hnew)%valid_chain_snoc. by destruct (Hnew Hk).
    + intros u this' [=].
    + intros e this' [= <- <-]. split; [|done].
      intros (_ & _ & Hnew)%valid_chain_snoc. by destruct (Hnew Hk).
  - assert (at_most_once k = true → k ∉ ops.*1) as Hnew.
    { intros Hk Hin. apply (isSelectorExist_built rs) in Hin.
      by rewrite Hk, Hin in Hrep. }
    destruct (last ops) as [op|] eqn:Hl.
    + destruct (bool_decide (spec_rank k < spec_rank op.1)) eqn:Hlt.
      * apply bool_decide_eq_true_1 in Hlt. split_and!.
        -- intros _ (_ & Hlast & _)%valid_chain_snoc.
           specialize (Hlast op Hl). lia.
        -- intros u this' [=].
        -- intros e this' [= <- <-]. split; [|done].
           intros (_ & Hlast & _)%valid_chain_snoc.
           specialize (Hlast op Hl). lia.
      * apply bool_decide_eq_false_1 in Hlt. split_and!; [done| |by intros e this' [=]].
        intros u this' [= <-]. split; [|done]. intros Hv.
        apply valid_chain_snoc. split_and!; [done| |done].
        intros op' Hop'. rewrite Hl in Hop'. injection Hop' as <-. lia.
    + split_and!; [done| |by intros e this' [=]].
      intros u this' [= <-]. split; [|done]. intros Hv.
      apply valid_chain_snoc. split_and!; [done| |done].
      intros op' Hop'. by rewrite Hl in Hop'.
Qed.

(** A chain on a builder of known content returns exactly when the content
    extended by the chain is valid. *)
Lemma appends_built (ops : list (category * string)) :
  ∀ (rs : list string) (ops0 : list (category * string)),
    valid_chain ops0 →
    (valid_chain (ops0 ++ ops)
     ∧ appends ops (built rs ops0) = (Return tt, built rs (ops0 ++ ops)))
    ∨ (¬ valid_chain (ops0 ++ ops)
       ∧ ∃ e this', appends ops (built rs ops0) = (Throw e, this')).
Proof.
  induction ops as [|[k v] ops IH]; intros rs ops0 Hvalid.
  - left. rewrite app_nil_r. done.
  - destruct (append_built rs ops0 k v) as (_ & Hret & Hthrow).
    simpl. unfold mbind, M_bind.
    destruct (append k v (built rs ops0)) as [[[]|e] this'] eqn:Happ.
    + destruct (Hret tt this' eq_refl) as [Hv ->]. specialize (Hv Hvalid).
      replace (ops0 ++ (k, v) :: ops) with ((ops0 ++ [(k, v)]) ++ ops)
        by by rewrite <- app_assoc.
      apply IH, Hv.
    + destruct (Hthrow e this' eq_refl) as [Hinv ->]. right. split; [|by eauto].
      intros Hv. apply Hinv.
      apply (valid_chain_app_l _ ops). by rewrite <- app_assoc.
Qed.

(** Every builder of a reachable heap has the shape [built rs ops]. *)
Lemma reachable_shaped (h : heap) : reachable h → Forall shaped h.
Proof.
  assert (∀ this, shaped this → set_selectors [] this = built [] []) as Hclr.
  { by intros this (rs & ops & -> & _). }
  assert (shaped (built [] [])) as Hempty.
  { exists [], []. split_and!; [done|by left|apply valid_chain_nil]. }
  induction 1 as [|h c Hreach IH Hrefs]; [by constructor|].
  destruct c as [k v|r k v|r|r1 c r2]; simpl in *.
  - unfold mbind, M_bind. rewrite facade_eq. simpl.
    apply Forall_app. split; [done|]. apply Forall_singleton.
    exists [], [(k, v)]. split_and!; [done|by left|].
    apply (valid_chain_snoc [] k v). split_and!.
    + apply valid_chain_nil.
    + by intros op [=].
    + intros _ Hin. simpl in Hin. by apply not_elem_of_nil in Hin.
  - apply Forall_singleton, lookup_lt_is_Some_2 in Hrefs as [this Hthis].
    rewrite (call_eq _ _ _ _ Hthis). simpl.
    apply Forall_insert; [done|].
    destruct (Forall_lookup_1 _ _ _ _ IH Hthis) as (rs & ops & -> & Hrs & Hv).
    destruct (append_built rs ops k v) as (_ & Hret & Hthrow).
    destruct (append k v (built rs ops)) as [[u|e] this'] eqn:Happ; simpl.
    + destruct (Hret u this' eq_refl) as [Hv' ->].
      exists rs, (ops ++ [(k, v)]). auto.
    + destruct (Hthrow e this' eq_refl) as [_ ->]. by exists rs, ops.
  - apply Forall_singleton, lookup_lt_is_Some_2 in Hrefs as [this Hthis].
    unfold mbind, M_bind. rewrite (call_eq _ _ _ _ Hthis), stringify_eq. simpl.
    apply Forall_insert; [done|].
    rewrite (Hclr this) by by eapply Forall_lookup_1. done.
  - apply Forall_cons in Hrefs as [[a Ha]%lookup_lt_is_Some_2 Hrefs].
    apply Forall_singleton, lookup_lt_is_Some_2 in Hrefs as [b Hb].
    unfold mbind, M_bind. rewrite (combine_eq _ _ _ _ _ _ Ha Hb). simpl.
    rewrite (Hclr a), (Hclr b) by by eapply Forall_lookup_1.
    repeat apply Forall_insert; [|done..|].
    + apply Forall_app. split; [done|]. by apply Forall_singleton.
    + eexists [_; _; _], []. split_and!; [done| |apply valid_chain_nil].
      right. by eexists _, _, _.
Qed.

Lemma ranks_built (rs : list string) (ops : list (category * string)) :
  ranks (built rs ops) = (λ op, spec_rank op.1) <$> ops.
Proof.
  unfold ranks. simpl. rewrite omap_app.
  assert (omap priority (raw_fragment <$> rs) = []) as ->
    by (induction rs; done).
  rewrite app_nil_l.
  induction ops as [|op ops IH]; [done|]. csimpl. by f_equal.
Qed.

Lemma tagged_built (rs : list string) (ops : list (category * string))
    (k : category) :
  length (filter (λ o, type o = type_name k) (selectors (built rs ops)))
  = occurrences k ops.
Proof.
  simpl. rewrite filter_app, length_app.
  assert (filter (λ o, type o = type_name k) (raw_fragment <$> rs) = []) as ->.
  { induction rs as [|s rs IH]; [done|].
    rewrite fmap_cons, filter_cons_False; [done|]. by destruct k. }
  simpl. induction ops as [|op ops IH]; [done|].
  rewrite fmap_cons, filter_cons, occurrences_cons.
  destruct (decide (op.1 = k)) as [Heq|Hne].
  - rewrite decide_True by (simpl; by rewrite Heq). simpl. by rewrite IH.
  - rewrite decide_False; [done|]. simpl. by intros ?%type_name_inj.
Qed.

Lemma foldr_max_ge (r : Z) (rs : list Z) (x : Z) :
  x ∈ r :: rs → x ≤ foldr Z.max r rs.
Proof.
  induction rs as [|a rs IH]; simpl.
  - intros ->%list_elem_of_singleton. lia.
  - intros Hin. apply elem_of_cons in Hin as [->|Hin].
    + etrans; [apply IH, list_elem_of_here|apply Z.le_max_r].
    + apply elem_of_cons in Hin as [->|Hin]; [apply Z.le_max_l|].
      etrans; [apply IH; by apply list_elem_of_further|apply Z.le_max_r].
Qed.

Lemma sorted_le_last (l : list Z) (y x : Z) :
  StronglySorted Z.le l → last l = Some y → x ∈ l → x ≤ y.
Proof.
  intros Hs (l' & ->)%last_Some [Hin| ->%list_elem_of_singleton]%elem_of_app;
    [|done].
  eapply (StronglySorted_app_1_elem_of _ _ _ _ _ Hs); [done|].
  apply list_elem_of_here.
Qed.

Lemma appends_app (l1 l2 : list (category * string)) (this : Builder) :
  appends (l1 ++ l2) this = (appends l1;; appends l2) this.
Proof.
  revert this. induction l1 as [|[k v] l1 IH]; intros this; [done|].
  simpl. unfold mbind, M_bind in *.
  destruct (append k v this) as [[[]|e] this']; [|done]. apply IH.
Qed.

Lemma appends_return_state (ops : list (category * string)) :
  ∀ this this',
    appends ops this = (Return tt, this') →
    this' = set_selectors (selectors this ++ (fragment <$> ops)) this.
Proof.
  induction ops as [|[k v] ops IH]; intros this this'; simpl.
  - intros [= <-]. by rewrite app_nil_r, set_selectors_id.
  - unfold mbind, M_bind. rewrite append_eq.
    destruct (at_most_once k && _); [done|].
    destruct (Builder.isPriorityRight _ this); [done|].
    intros ->%IH. simpl. by rewrite <- app_assoc.
Qed.

(** [combine] on two different builders. *)
Lemma combine_distinct (h : heap) (A B : loc) (c : string) (a b : Builder) :
  h !! A = Some a → h !! B = Some b → A ≠ B →
  ∃ h' res,
    cssSelectorBuilder.combine A c B h = (Return (length h), h')
    ∧ h' !! length h = Some res
    ∧ concat_strings (value <$> selectors res)
      = concat_strings (value <$> selectors a) +:+ " " +:+ c +:+ " "
          +:+ concat_strings (value <$> selectors b)
    ∧ (∀ j x, j ≠ A → j ≠ B → h !! j = Some x → h' !! j = Some x).
Proof.
  intros HA HB Hne.
  pose proof (lookup_lt_Some _ _ _ HA) as HlA.
  eexists _, _. split; [by apply combine_eq|]. split_and!.
  - apply list_lookup_insert_eq. rewrite !length_insert, length_app. simpl. lia.
  - rewrite decide_False by done. unfold concat_strings. simpl.
    by rewrite string_app_nil_r, !string_app_assoc.
  - intros j x HjA HjB Hj.
    pose proof (lookup_lt_Some _ _ _ Hj) as Hlj.
    rewrite !list_lookup_insert_ne by lia. by apply lookup_app_l_Some.
Qed.

(** ** Entry points *)

(** X1: an entry point of [cssSelectorBuilder] never throws.  It creates a
    new builder behind a reference that was not in use, holding exactly the
    one fragment and rendering to its formatted text, and it leaves every
    existing builder untouched. *)
Theorem X1_entry_point_fresh (k : category) (v : string) (h : heap) :
  ∃ this,
    facade k v h = (Return (length h), h ++ [this])
    ∧ selectors this = [fragment (k, v)]
    ∧ renders_to this (spec_text k v)
    ∧ h !! length h = None
    ∧ (∀ j b, h !! j = Some b → (h ++ [this]) !! j = Some b).
Proof.
  eexists. split; [apply facade_eq|]. split_and!.
  - done.
  - unfold renders_to. rewrite stringify_eq. unfold concat_strings. simpl.
    by rewrite string_app_nil_r.
  - by apply lookup_ge_None.
  - intros j b Hj. by apply lookup_app_l_Some.
Qed.

(** ** Validation is exact *)

(** X2: a chain of appends on a fresh builder returns if and only if its
    ranks are non-decreasing and element, id and pseudo-element occur at
    most once each: the two checks reject nothing else and accept nothing
    else. *)
Theorem X2_chain_accepted_iff_valid (ops : list (category * string)) :
  (∃ this, appends ops Builder.constructor = (Return tt, this)) ↔
    Sorted Z.le ((λ op, spec_rank op.1) <$> ops)
    ∧ (occurrences Element ops ≤ 1)%nat
    ∧ (occurrences Id ops ≤ 1)%nat
    ∧ (occurrences PseudoElement ops ≤ 1)%nat.
Proof.
  assert (valid_chain ops ↔
    Sorted Z.le ((λ op, spec_rank op.1) <$> ops)
    ∧ (occurrences Element ops ≤ 1)%nat
    ∧ (occurrences Id ops ≤ 1)%nat
    ∧ (occurrences PseudoElement ops ≤ 1)%nat) as <-.
  { unfold valid_chain. split.
    - intros [Hs Hocc]. split_and!; [done|by apply Hocc..].
    - intros (Hs & He & Hi & Hp). split; [done|]. by intros []. }
  destruct (appends_built ops [] [] valid_chain_nil)
    as [[Hv Hrun]|[Hv (e & this' & Hrun)]];
    change (built [] []) with Builder.constructor in Hrun; simpl in Hv.
  - split; [done|]. intros _. eauto.
  - split; [|done]. intros [this Hthis]. congruence.
Qed.

Lemma X2_chain_accepted_iff_valid_witness :
  ¬ ∃ this,
      appends [(Class, "container"); (Id, "main")] Builder.constructor
      = (Return tt, this).
Proof.
  intros Hrun.
  apply (X2_chain_accepted_iff_valid [(Class, "container"); (Id, "main")])
    in Hrun as [Hsorted _].
  apply Sorted_inv in Hsorted as [_ Hhd]. apply HdRel_inv in Hhd.
  simpl in Hhd. lia.
Defined.

(** ** Invariants of reachable heaps *)

(** X3: in every builder of a reachable heap, at most one fragment is
    tagged element, at most one id, and at most one pseudo-element. *)
Theorem X3_reachable_unique_categories (h : heap) (r : loc) (this : Builder)
    (k : category) :
  reachable h → h !! r = Some this →
  k ∈ [Element; Id; PseudoElement] →
  (length (filter (λ o, type o = type_name k) (selectors this)) ≤ 1)%nat.
Proof.
  intros Hreach Hthis Hk.
  apply reachable_shaped in Hreach.
  destruct (Forall_lookup_1 _ _ _ _ Hreach Hthis)
    as (rs & ops & -> & _ & _ & Hocc).
  rewrite tagged_built. apply Hocc.
  repeat (apply elem_of_cons in Hk as [->|Hk]; [done|]).
  by apply elem_of_nil in Hk.
Qed.

Lemma X3_reachable_unique_categories_witness :
  (length (filter (λ o, type o = type_name Id) (selectors div_main)) ≤ 1)%nat.
Proof.
  apply (X3_reachable_unique_categories [div_main] 0%nat div_main Id
           div_main_reachable eq_refl).
  apply list_elem_of_further, list_elem_of_here.
Defined.

(** X4: in every builder of a reachable heap the fragments are zero or
    three raw fragments (those of one [combine]) followed by ranked
    fragments only, each tagged and ranked as its category says, and the
    ranks are in non-decreasing order. *)
Theorem X4_reachable_ranked_order (h : heap) (r : loc) (this : Builder) :
  reachable h → h !! r = Some this →
  Sorted Z.le (ranks this)
  ∧ ∃ raws ranked,
      selectors this = raws ++ ranked
      ∧ Forall (λ o, type o = "raw" ∧ priority o = None) raws
      ∧ (length raws = 0 ∨ length raws = 3)%nat
      ∧ Forall (λ o, ∃ k, type o = type_name k
                          ∧ priority o = Some (spec_rank k)) ranked.
Proof.
  intros Hreach Hthis.
  apply reachable_shaped in Hreach.
  destruct (Forall_lookup_1 _ _ _ _ Hreach Hthis)
    as (rs & ops & -> & Hrs & Hs & _).
  split; [by rewrite ranks_built|].
  exists (raw_fragment <$> rs), (fragment <$> ops). split_and!.
  - done.
  - apply Forall_fmap, Forall_true. done.
  - rewrite length_fmap.
    destruct Hrs as [->|(s1 & c & s2 & ->)]; [by left|by right].
  - apply Forall_fmap, Forall_true. intros [k v]. by exists k.
Qed.

Lemma X4_reachable_ranked_order_witness :
  Sorted Z.le (ranks main_container)
  ∧ ∃ raws ranked,
      selectors main_container = raws ++ ranked
      ∧ Forall (λ o, type o = "raw" ∧ priority o = None) raws
      ∧ (length raws = 0 ∨ length raws = 3)%nat
      ∧ Forall (λ o, ∃ k, type o = type_name k
                          ∧ priority o = Some (spec_rank k)) ranked.
Proof.
  apply (X4_reachable_ranked_order [main_container] 0%nat main_container
           main_container_reachable eq_refl).
Defined.

(** X5: on every builder of a reachable heap the rank of the last ranked
    fragment is the maximum rank, so the order check of the code, which
    looks at the last fragment only, fires exactly when the new rank is
    below the maximum rank present. *)
Theorem X5_last_check_is_max_check (h : heap) (r : loc) (this : Builder) (p : Z) :
  reachable h → h !! r = Some this →
  max_rank this = last_rank this
  ∧ (Builder.isPriorityRight p this = true ↔
       ∃ m, max_rank this = Some m ∧ p < m).
Proof.
  intros Hreach Hthis.
  apply reachable_shaped in Hreach.
  destruct (Forall_lookup_1 _ _ _ _ Hreach Hthis)
    as (rs & ops & -> & _ & Hs%sorted_le_strongly & _).
  assert (max_rank (built rs ops) = last_rank (built rs ops)) as Heq.
  { unfold max_rank, last_rank. rewrite ranks_built.
    destruct ((λ op, spec_rank op.1) <$> ops) as [|x l] eqn:Hl; [done|].
    destruct (last (x :: l)) as [y|] eqn:Hy; [|by apply last_None in Hy].
    f_equal. apply Z.le_antisymm.
    - apply (sorted_le_last (x :: l)); [done..|].
      clear. induction l as [|a l IH]; simpl; [apply list_elem_of_here|].
      destruct (Z.max_spec a (foldr Z.max x l)) as [[_ ->]|[_ ->]].
      + apply elem_of_cons in IH as [->|IH];
          [apply list_elem_of_here | by do 2 apply list_elem_of_further].
      + apply list_elem_of_further, list_elem_of_here.
    - apply foldr_max_ge. by eapply last_Some_elem_of. }
  split; [done|]. rewrite Heq, isPriorityRight_built.
  unfold last_rank. rewrite ranks_built, fmap_last.
  destruct (last ops) as [op|]; simpl.
  - rewrite bool_decide_eq_true. split; [by eauto|]. by intros (m & [= <-] & ?).
  - split; [done|]. by intros (m & [=] & _).
Qed.

Lemma X5_last_check_is_max_check_witness :
  max_rank div_main = last_rank div_main
  ∧ (Builder.isPriorityRight 1 div_main = true ↔
       ∃ m, max_rank div_main = Some m ∧ 1 < m).
Proof.
  apply (X5_last_check_is_max_check [div_main] 0%nat div_main 1
           div_main_reachable eq_refl).
Defined.

(** ** Appends and rendering *)

(** X6: an append that returns pushes exactly one fragment behind the ones
    already there, keeps the error messages, and extends what the builder
    renders to by the formatted text of the new fragment. *)
Theorem X6_append_extends_render (this this' : Builder) (k : category)
    (v s : string) :
  append k v this = (Return tt, this') →
  renders_to this s →
  selectors this' = selectors this ++ [fragment (k, v)]
  ∧ renders_to this' (s +:+ spec_text k v)
  ∧ repeatError this' = repeatError this
  ∧ orderError this' = orderError this.
Proof.
  rewrite append_eq. unfold renders_to. rewrite !stringify_eq. simpl.
  destruct (at_most_once k && _); [done|].
  destruct (Builder.isPriorityRight _ this); [done|].
  intros [= <-] [= <-]. simpl. split_and!; [done| |done..].
  rewrite fmap_app, concat_strings_app. unfold concat_strings at 2. simpl.
  by rewrite string_app_nil_r.
Qed.

Lemma X6_append_extends_render_witness :
  selectors (built [] [(Element, "div"); (Id, "main"); (Class, "container")])
    = selectors div_main ++ [fragment (Class, "container")]
  ∧ renders_to (built [] [(Element, "div"); (Id, "main"); (Class, "container")])
      "div#main.container"
  ∧ repeatError (built [] [(Element, "div"); (Id, "main"); (Class, "container")])
    = repeatError div_main
  ∧ orderError (built [] [(Element, "div"); (Id, "main"); (Class, "container")])
    = orderError div_main.
Proof.
  apply (X6_append_extends_render div_main
           (built [] [(Element, "div"); (Id, "main"); (Class, "container")])
           Class "container" "div#main"); reflexivity.
Defined.

(** X9: a chain stops at its first append that throws.  The error of that
    append is the error of the chain, the appends after it are not run, and
    the builder holds its earlier fragments followed by those of the appends
    that came before the failing one. *)
Theorem X9_failed_chain_keeps_prefix (pre post : list (category * string))
    (op : category * string) (this mid : Builder) (e : exn) :
  appends pre this = (Return tt, mid) →
  (append op.1 op.2 mid).1 = Throw e →
  appends (pre ++ op :: post) this = (Throw e, mid)
  ∧ mid = set_selectors (selectors this ++ (fragment <$> pre)) this.
Proof.
  intros Hpre Hop. split; [|by apply appends_return_state].
  rewrite appends_app. unfold mbind, M_bind. rewrite Hpre.
  destruct op as [k v]. simpl in *. unfold mbind, M_bind.
  rewrite append_eq in *.
  destruct (at_most_once k && _); simpl in *; [by injection Hop as <-|].
  destruct (Builder.isPriorityRight _ mid); simpl in *; [|done].
  by injection Hop as <-.
Qed.

Lemma X9_failed_chain_keeps_prefix_witness :
  appends ([(Element, "div"); (Id, "main")]
           ++ (Element, "span") :: [(Class, "container")])
    Builder.constructor
  = (Throw (Error (repeatError div_main)), div_main)
  ∧ div_main
    = set_selectors
        (selectors Builder.constructor
         ++ (fragment <$> [(Element, "div"); (Id, "main")]))
        Builder.constructor.
Proof.
  apply (X9_failed_chain_keeps_prefix [(Element, "div"); (Id, "main")]
           [(Class, "container")] (Element, "span")
           Builder.constructor div_main (Error (repeatError div_main)));
    reflexivity.
Defined.

(** X10: class, attr and pseudoClass can be repeated.  On a builder whose
    last fragment, if it has a rank, does not outrank the category, any
    number of appends of that one category in a row all return, and the
    fragments are pushed in call order. *)
Theorem X10_repeatable_categories (this : Builder) (k : category)
    (vs : list string) :
  k ∈ [Class; Attr; PseudoClass] →
  (∀ o p, last (selectors this) = Some o → priority o = Some p →
          p ≤ spec_rank k) →
  appends ((λ v, (k, v)) <$> vs) this
  = (Return tt,
     set_selectors (selectors this ++ ((λ v, fragment (k, v)) <$> vs)) this).
Proof.
  intros Hk Hlast.
  assert (at_most_once k = false) as Hmany.
  { repeat (apply elem_of_cons in Hk as [->|Hk]; [done|]).
    by apply elem_of_nil in Hk. }
  rewrite appends_ready.
  - by rewrite <- list_fmap_compose.
  - rewrite <- list_fmap_compose. simpl.
    induction vs as [|v vs IH]; simpl; constructor; [done|].
    apply Forall_fmap, Forall_true. intros v'. unfold compose. simpl. lia.
  - intros k' Hk'. rewrite occurrences_zero; [lia|].
    rewrite <- list_fmap_compose. simpl.
    intros (v & -> & _)%list_elem_of_fmap. unfold compose in Hk'. simpl in Hk'.
    congruence.
  - split.
    + intros op (v & -> & _)%list_elem_of_fmap. simpl.
      rewrite isPriorityRight_last.
      destruct (last (selectors this)) as [o|] eqn:Hl; [|done].
      destruct (priority o) as [p|] eqn:Hp; [|done]. simpl.
      apply bool_decide_eq_false_2. specialize (Hlast o p eq_refl Hp). lia.
    + intros op (v & -> & _)%list_elem_of_fmap. simpl. congruence.
Qed.

Lemma X10_repeatable_categories_witness :
  appends ((λ v, (Class, v)) <$> ["editable"; "draggable"]) main_container
  = (Return tt,
     set_selectors
       (selectors main_container
        ++ ((λ v, fragment (Class, v)) <$> ["editable"; "draggable"]))
       main_container).
Proof.
  apply (X10_repeatable_categories main_container Class ["editable"; "draggable"]).
  - apply list_elem_of_here.
  - intros o p [= <-] [= <-]. simpl. lia.
Defined.

(** X11: a pseudo-element is the end of a compound selector.  On a builder
    whose last fragment was pushed by [pseudoElement], every append throws
    and changes nothing: the repeat error for another pseudo-element, the
    order error for class, attr and pseudoClass. *)
Theorem X11_pseudo_element_is_terminal (this : Builder) (o : Selector)
    (k : category) (v : string) :
  last (selectors this) = Some o →
  type o = "pseudoElement" → priority o = Some 6 →
  ∃ e, append k v this = (Throw e, this)
       ∧ (k = PseudoElement → e = Error (repeatError this))
       ∧ (at_most_once k = false → e = Error (orderError this)).
Proof.
  intros Hl Hty Hp. rewrite append_eq, isPriorityRight_last, Hl, Hp. simpl.
  assert (Builder.isSelectorExist "pseudoElement" this = true) as Hex.
  { apply isSelectorExist_true. exists o. split; [|done].
    by eapply last_Some_elem_of. }
  destruct k; simpl; rewrite ?Hex;
    repeat match goal with
      | |- context [if ?b then _ else _] => destruct b
      end;
    eexists; split_and!; done.
Qed.

Lemma X11_pseudo_element_is_terminal_witness :
  ∃ e, append Class "late" (built [] [(Element, "p"); (PseudoElement, "first-line")])
       = (Throw e, built [] [(Element, "p"); (PseudoElement, "first-line")])
       ∧ (Class = PseudoElement →
          e = Error (repeatError (built [] [(Element, "p"); (PseudoElement, "first-line")])))
       ∧ (at_most_once Class = false →
          e = Error (orderError (built [] [(Element, "p"); (PseudoElement, "first-line")]))).
Proof.
  apply (X11_pseudo_element_is_terminal
           (built [] [(Element, "p"); (PseudoElement, "first-line")])
           (fragment (PseudoElement, "first-line")) Class "late");
    reflexivity.
Defined.

(** ** Combining *)

(** X7: combined selectors can be combined again, and for three different
    builders the nesting does not matter: [combine(combine(A, c1, B), c2, C)]
    and [combine(A, c1, combine(B, c2, C))] both return a builder that
    renders to the three renders joined by the two spaced combinators. *)
Theorem X7_nested_combine_associative (h : heap) (A B C : loc)
    (c1 c2 : string) (a b c : Builder) (sa sb sc : string) :
  h !! A = Some a → h !! B = Some b → h !! C = Some c →
  A ≠ B → B ≠ C → A ≠ C →
  renders_to a sa → renders_to b sb → renders_to c sc →
  ∃ r1 h1 res1 r2 h2 res2,
    (ab ← cssSelectorBuilder.combine A c1 B;
     cssSelectorBuilder.combine ab c2 C) h = (Return r1, h1)
    ∧ h1 !! r1 = Some res1
    ∧ (bc ← cssSelectorBuilder.combine B c2 C;
       cssSelectorBuilder.combine A c1 bc) h = (Return r2, h2)
    ∧ h2 !! r2 = Some res2
    ∧ renders_to res1
        (sa +:+ " " +:+ c1 +:+ " " +:+ sb +:+ " " +:+ c2 +:+ " " +:+ sc)
    ∧ renders_to res2
        (sa +:+ " " +:+ c1 +:+ " " +:+ sb +:+ " " +:+ c2 +:+ " " +:+ sc).
Proof.
  intros HA HB HC HAB HBC HAC Hsa Hsb Hsc.
  unfold renders_to in *. rewrite stringify_eq in Hsa, Hsb, Hsc.
  simpl in Hsa, Hsb, Hsc.
  injection Hsa as Hsa. injection Hsb as Hsb. injection Hsc as Hsc.
  pose proof (lookup_lt_Some _ _ _ HA) as HlA.
  pose proof (lookup_lt_Some _ _ _ HC) as HlC.
  destruct (combine_distinct h A B c1 a b HA HB HAB)
    as (hl & resl & Hrunl & Hresl & Hcatl & Hkeepl).
  destruct (combine_distinct hl (length h) C c2 resl c Hresl)
    as (hl' & resl' & Hrunl' & Hresl' & Hcatl' & _);
    [by apply Hkeepl | lia |].
  destruct (combine_distinct h B C c2 b c HB HC HBC)
    as (hr & resr & Hrunr & Hresr & Hcatr & Hkeepr).
  destruct (combine_distinct hr A (length h) c1 a resr)
    as (hr' & resr' & Hrunr' & Hresr' & Hcatr' & _);
    [by apply Hkeepr | done | lia |].
  exists (length hl), hl', resl', (length hr), hr', resr'.
  unfold mbind, M_bind. rewrite Hrunl, Hrunl', Hrunr, Hrunr'.
  rewrite !stringify_eq. simpl.
  rewrite Hcatl', Hcatl, Hcatr', Hcatr, Hsa, Hsb, Hsc.
  split_and!; [done..| |done]. by rewrite !string_app_assoc.
Qed.

Lemma X7_nested_combine_associative_witness :
  ∃ r1 h1 res1 r2 h2 res2,
    (ab ← cssSelectorBuilder.combine 0%nat "+" 1%nat;
     cssSelectorBuilder.combine ab "~" 2%nat)
      [div_main; table_data; main_container] = (Return r1, h1)
    ∧ h1 !! r1 = Some res1
    ∧ (bc ← cssSelectorBuilder.combine 1%nat "~" 2%nat;
       cssSelectorBuilder.combine 0%nat "+" bc)
        [div_main; table_data; main_container] = (Return r2, h2)
    ∧ h2 !! r2 = Some res2
    ∧ renders_to res1 "div#main + table#data ~ #main.container"
    ∧ renders_to res2 "div#main + table#data ~ #main.container".
Proof.
  apply (X7_nested_combine_associative [div_main; table_data; main_container]
           0%nat 1%nat 2%nat "+" "~" div_main table_data main_container
           "div#main" "table#data" "#main.container");
    (reflexivity || lia).
Defined.

(** X12: the builder returned by [combine] is new and holds exactly three
    raw fragments: the render of the first operand, the combinator between
    two spaces, and the render of the second operand (empty when both
    operands are the same builder).  It takes a chain of appends like a
    fresh builder does: the chain returns exactly when its ranks are
    non-decreasing and element, id and pseudo-element occur at most once in
    it, and then its fragments follow the three raw ones. *)
Theorem X12_chain_after_combine (h : heap) (A B : loc) (c : string)
    (a b : Builder) (ops : list (category * string)) :
  h !! A = Some a → h !! B = Some b →
  ∃ r h' res,
    cssSelectorBuilder.combine A c B h = (Return r, h')
    ∧ h !! r = None
    ∧ h' !! r = Some res
    ∧ selectors res
      = [raw_fragment (concat_strings (value <$> selectors a));
         raw_fragment (" " +:+ c +:+ " ");
         raw_fragment (if decide (A = B) then ""
                       else concat_strings (value <$> selectors b))]
    ∧ ((∃ this, appends ops res = (Return tt, this)) ↔ valid_chain ops)
    ∧ (∀ this, appends ops res = (Return tt, this) →
         selectors this
         = [raw_fragment (concat_strings (value <$> selectors a));
            raw_fragment (" " +:+ c +:+ " ");
            raw_fragment (if decide (A = B) then ""
                          else concat_strings (value <$> selectors b))]
           ++ (fragment <$> ops)).
Proof.
  intros HA HB.
  pose proof (lookup_lt_Some _ _ _ HA) as HlA.
  eexists _, _, _. split; [by apply combine_eq|]. split_and!.
  - by apply lookup_ge_None.
  - apply list_lookup_insert_eq. rewrite !length_insert, length_app. simpl. lia.
  - done.
  - match goal with
    | |- context [set_selectors (raw_fragment <$> ?rs) Builder.constructor] =>
        change (set_selectors (raw_fragment <$> rs) Builder.constructor)
          with (built rs []);
        destruct (appends_built ops rs [] valid_chain_nil)
          as [[Hv Hrun]|[Hv (e & this' & Hrun)]]
    end; simpl in Hv.
    + split; [done|]. intros _. eauto.
    + split; [|done]. intros [this Hthis]. congruence.
  - intros this ->%appends_return_state. done.
Qed.

Lemma X12_chain_after_combine_witness :
  ∃ r h' res,
    cssSelectorBuilder.combine 0%nat "+" 1%nat [div_main; table_data]
      = (Return r, h')
    ∧ [div_main; table_data] !! r = None
    ∧ h' !! r = Some res
    ∧ selectors res
      = [raw_fragment "div#main"; raw_fragment " + "; raw_fragment "table#data"]
    ∧ ((∃ this, appends [(Element, "tr"); (PseudoClass, "hover")] res
                = (Return tt, this))
       ↔ valid_chain [(Element, "tr"); (PseudoClass, "hover")])
    ∧ (∀ this, appends [(Element, "tr"); (PseudoClass, "hover")] res
               = (Return tt, this) →
         selectors this
         = [raw_fragment "div#main"; raw_fragment " + "; raw_fragment "table#data"]
           ++ (fragment <$> [(Element, "tr"); (PseudoClass, "hover")])).
Proof.
  apply (X12_chain_after_combine [div_main; table_data] 0%nat 1%nat "+"
           div_main table_data [(Element, "tr"); (PseudoClass, "hover")]);
    reflexivity.
Defined.

(** ** Reuse *)

(** X8: nothing in the interface changes the two error messages of a
    builder: they are the ones the constructor sets, and they differ, so a
    caller can tell the two failures apart.  Hence [stringify] leaves a
    builder in exactly the state of [new Builder()], ready for a new chain. *)
Theorem X8_stringify_resets_to_new (h : heap) (r : loc) (this : Builder) :
  reachable h → h !! r = Some this →
  repeatError this = repeatError Builder.constructor
  ∧ orderError this = orderError Builder.constructor
  ∧ repeatError this ≠ orderError this
  ∧ (Builder.stringify this).2 = Builder.constructor.
Proof.
  intros Hreach Hthis.
  apply reachable_shaped in Hreach.
  destruct (Forall_lookup_1 _ _ _ _ Hreach Hthis) as (rs & ops & -> & _).
  rewrite stringify_eq. done.
Qed.

Lemma X8_stringify_resets_to_new_witness :
  repeatError div_main = repeatError Builder.constructor
  ∧ orderError div_main = orderError Builder.constructor
  ∧ repeatError div_main ≠ orderError div_main
  ∧ (Builder.stringify div_main).2 = Builder.constructor.
Proof.
  apply (X8_stringify_resets_to_new [div_main] 0%nat div_main
           div_main_reachable eq_refl).
Defined.
